(** * Password analyzer: a shallow embedding of [app.js]

    The analyzer scores a candidate password (composition score, pattern
    flags, entropy estimate) and looks its SHA-1 digest up in a k-anonymity
    breach range.  Every function below is a transcription of the function
    of the same name in [password checker/app.js]; the platform primitives
    it calls (String.prototype methods, parseInt, regular expressions) are
    transcribed in [Module JS] from ECMA-262. *)

From Stdlib Require Import ZArith NArith List String Ascii Bool Lia Reals Lra.
From Stdlib Require Strings.Byte DecimalString.
From stdpp Require Import base decidable list gmap strings.

(** ** JavaScript strings and the String methods the analyzer calls *)

Module JS.

(** A JavaScript string is a sequence of UTF-16 code units. *)
Abbreviation jsstring := (list N).

(** A string literal of the source (all literals of app.js are ASCII). *)
Definition str (lit : string) : jsstring :=
  map N_of_ascii (list_ascii_of_string lit).

Local Open Scope N_scope.

(** Character classes of the regular expressions in app.js. *)
Definition isLower (c : N) : bool := (97 <=? c) && (c <=? 122).   (* [a-z] *)
Definition isUpper (c : N) : bool := (65 <=? c) && (c <=? 90).    (* [A-Z] *)
Definition isDigit (c : N) : bool := (48 <=? c) && (c <=? 57).    (* [0-9], \d *)
Definition isAlnum (c : N) : bool := isUpper c || isLower c || isDigit c.
(** [a-z] under the /i flag (no /u): Canonicalize never folds a code unit
    above 127 onto an ASCII one, so the class is exactly the ASCII letters. *)
Definition isLetter (c : N) : bool := isLower c || isUpper c.
(** LineTerminator: LF, CR, LS, PS.  The atom [.] matches anything else. *)
Definition isLineTerminator (c : N) : bool :=
  (c =? 10) || (c =? 13) || (c =? 8232) || (c =? 8233).
Definition isDot (c : N) : bool := negb (isLineTerminator c).
(** WhiteSpace and LineTerminator, as skipped by trim and parseInt. *)
Definition isWhiteSpace (c : N) : bool :=
  (c =? 9) || (c =? 11) || (c =? 12) || (c =? 32) || (c =? 160) ||
  (c =? 5760) || ((8192 <=? c) && (c <=? 8202)) || (c =? 8239) ||
  (c =? 8287) || (c =? 12288) || (c =? 65279) || isLineTerminator c.

(** [re.test(s)] for a regular expression that is one character class. *)
Definition test (cls : N -> bool) (s : jsstring) : bool := existsb cls s.

(** [s.slice(a, b)], [s.slice(a)] and [s.substr(i, n)] at non-negative
    indices (the only ones app.js passes). *)
Definition slice (s : jsstring) (a b : nat) : jsstring := take (b - a) (drop a s).
Definition sliceFrom (s : jsstring) (a : nat) : jsstring := drop a s.
Definition substr (s : jsstring) (i n : nat) : jsstring := take n (drop i s).

Fixpoint startsWith (s p : jsstring) {struct p} : bool :=
  match p, s with
  | [], _ => true
  | _ :: _, [] => false
  | x :: p', y :: s' => (x =? y) && startsWith s' p'
  end.

(** A search that is anchored nowhere (a regular expression without ^, or
    includes) succeeds when it succeeds at some start position. *)
Fixpoint search (matchHere : jsstring -> bool) (s : jsstring) : bool :=
  matchHere s ||
  match s with
  | [] => false
  | _ :: rest => search matchHere rest
  end.

(** [s.includes(p)]: p occurs in s as a contiguous substring. *)
Definition includes (s p : jsstring) : bool :=
  search (fun suffix => startsWith suffix p) s.

(** Case conversion.  On ASCII it is the 26-letter shift.  Outside ASCII it
    is the Unicode default case conversion of the host, which may depend on
    the context (Final_Sigma, surrogate pairs) and may yield several code
    units or ASCII ones (U+212A KELVIN SIGN lowers to k): it is a parameter,
    given the code units before, the unit itself and those after. *)
Definition CaseMap := jsstring -> N -> jsstring -> jsstring.

Definition asciiLower (c : N) : N := if isUpper c then c + 32 else c.
Definition asciiUpper (c : N) : N := if isLower c then c - 32 else c.

Section CaseConversion.
Variable ascii : N -> N.
Variable unicode : CaseMap.

Fixpoint convertFrom (before s : jsstring) : jsstring :=
  match s with
  | [] => []
  | c :: rest =>
      (if c <? 128 then [ascii c] else unicode before c rest)
        ++ convertFrom (before ++ [c]) rest
  end.
End CaseConversion.

Definition toLowerCase (unicodeLower : CaseMap) (s : jsstring) : jsstring :=
  convertFrom asciiLower unicodeLower [] s.
Definition toUpperCase (unicodeUpper : CaseMap) (s : jsstring) : jsstring :=
  convertFrom asciiUpper unicodeUpper [] s.

(** A case map that leaves every non-ASCII code unit alone; on ASCII-only
    strings every case map agrees with it. *)
Definition asciiOnly : CaseMap := fun _ c _ => [c].

Fixpoint dropWhile (f : N -> bool) (s : jsstring) : jsstring :=
  match s with
  | [] => []
  | c :: rest => if f c then dropWhile f rest else s
  end.

Fixpoint takeWhile (f : N -> bool) (s : jsstring) : jsstring :=
  match s with
  | [] => []
  | c :: rest => if f c then c :: takeWhile f rest else []
  end.

(** [s.trim()] *)
Definition trim (s : jsstring) : jsstring :=
  rev (dropWhile isWhiteSpace (rev (dropWhile isWhiteSpace s))).

(** [s.split(sep)] for a one-character separator: never the empty array. *)
Fixpoint split (sep : N) (s : jsstring) : list jsstring :=
  match s with
  | [] => [[]]
  | c :: rest =>
      if c =? sep then [] :: split sep rest
      else match split sep rest with
           | field :: fields => (c :: field) :: fields
           | [] => [[c]]
           end
  end.

(** The value of a run of decimal digits. *)
Definition decimalValue (ds : jsstring) : Z :=
  fold_left (fun acc d => (10 * acc + (Z.of_N d - 48))%Z) ds 0%Z.

(** [parseInt(s, 10)]: skip leading white space, read an optional sign and
    the longest run of decimal digits; [None] is NaN.  The result is the
    mathematical integer, which is what parseInt returns for magnitudes
    below 2^53; beyond that the host rounds to a double (or gives
    Infinity), which this function does not follow, so what is stated of a
    count is stated below that bound. *)
Definition parseInt10 (s : jsstring) : option Z :=
  let s := dropWhile isWhiteSpace s in
  let '(sign, s) :=
    match s with
    | 45 :: rest => ((-1)%Z, rest)
    | 43 :: rest => (1%Z, rest)
    | _ => (1%Z, s)
    end in
  match takeWhile isDigit s with
  | [] => None
  | ds => Some (sign * decimalValue ds)%Z
  end.

(** ToString of a positive integer Number (template literals), for the
    integers below 10^21 that JavaScript prints digit by digit. *)
Definition numberToString (n : Z) : string :=
  DecimalString.NilZero.string_of_int (Z.to_int n).

(** [x.toString(16)] for a byte and [s.padStart(2, '0')]. *)
Definition hexDigit (n : N) : N := if n <? 10 then 48 + n else 87 + n.
Definition toString16 (x : N) : jsstring :=
  if x <? 16 then [hexDigit x] else [hexDigit (x / 16); hexDigit (x mod 16)].
Definition padStart2 (s : jsstring) : jsstring := repeat 48 (2 - length s) ++ s.

(** [Math.log2] and [Math.round]; Numbers are read as real numbers. *)
Definition Math_log2 (x : R) : R := (ln x / ln 2)%R.
Definition Math_round (x : R) : R := IZR (Int_part (x + / 2)%R).

End JS.

Import JS.

(** ** Flags *)

Module Flag.
Inductive severity := danger | warn | info.

#[global] Instance severity_eq_dec : EqDecision severity.
Proof. solve_decision. Defined.

(** The object literal [{t, s, detail}] pushed by onInput. *)
Record flag := { t : string; s : severity; detail : string }.

#[global] Instance flag_eq_dec : EqDecision flag.
Proof. solve_decision. Defined.
End Flag.

Abbreviation Flag := Flag.flag.

(** ** app.js *)

Module App.

(** The common-password set (lines 28-45). *)

Definition commonPasswords : gset jsstring :=
  list_to_set (map str [
  "123456";"123456789";"password";"12345678";"qwerty";"12345";"1234567890";"1234567";"qwerty123";
  "1q2w3e";"111111";"123123";"abc123";"password1";"iloveyou";"admin";"welcome";"monkey";"dragon";
  "passw0rd";"letmein";"baseball";"football";"shadow";"master";"killer";"superman";"login";"flower";
  "hottie";"loveme";"zaq1zaq1";"password123";"zaq12wsx";"qazwsx";"trustno1";"starwars";"654321";
  "batman";"zaq1@WSX";"mustang";"michael";"pokemon";"computer";"internet";"hello";"freedom";"whatever";
  "qwertyuiop";"1qaz2wsx";"dragon123";"password!";"summer";"donald";"football1";"princess";"azerty";
  "pass";"pass1234";"qwe123";"1234";"1q2w3e4r";"555555";"loveyou";"123qwe";"passwords";"welcome1";
  "11111111";"987654321";"121212";"000000";"qwerty1";"1q2w3e4";"00000000";"ashley";"fluffy";"mynoob";
  "superman1";"charlie";"andrew";"letmein1";"monkey123";"hello123";"trustno1";"123321";"654321";"!@#$%^";
  "password1!";"zaq!@WSX";"1qaz2wsx3edc";"football123";"qwertyui";"qwer1234";"welcome123";"loveme123";
  "1q2w3e4r5t";"!@#$";"marina";"hannah";"michael1";"nicole";"jessica";"daniel";"jordan";"hunter";
  "buster";"soccer";"killer123";"passw0rd1";"steven";"tigger";"bailey";"pepper";"gregory";"summer123";
  "1qazxsw2";"flower123";"147258369";"mypass";"mypassword";"q1w2e3r4";"trustno1!";"cookie";"computer1";
  "qweasd";"asdfgh";"asdf1234";"zxcvbnm";"zxcvbn";"zaq12swx";"159753";"159357";"aa123456";"qweqwe";
  "monkey1";"shadow1";"iloveyou1";"123abc";"password1234";"abc123456";"qazwsxedc";"1qaz2wsx3";"love"
  ]%string).

(** Instance search never needs to look inside the set. *)
#[global] Typeclasses Opaque commonPasswords.

(** ** Pure helpers of app.js that do not convert case *)

(** [charsetSize] (lines 127-134). *)
Definition charsetSize (s : jsstring) : Z :=
  let size := 0%Z in
  let size := if test isLower s then (size + 26)%Z else size in
  let size := if test isUpper s then (size + 26)%Z else size in
  let size := if test isDigit s then (size + 10)%Z else size in
  let size := if test (fun c => negb (isAlnum c)) s then (size + 32)%Z else size in
  size.

(** The entropy estimate of onInput (lines 58-59). *)
Definition estimateEntropy (value : jsstring) : R :=
  let charset := charsetSize value in
  if (charset =? 0)%Z then 0%R
  else (Math_log2 (IZR charset) * INR (length value))%R.

(** [computeScore] (lines 137-145). *)
Definition computeScore (p : jsstring) : Z :=
  let score := 0%Z in
  let score := if (8 <=? length p)%nat then (score + 1)%Z else score in
  let score := if test isLower p then (score + 1)%Z else score in
  let score := if test isUpper p then (score + 1)%Z else score in
  let score := if test isDigit p then (score + 1)%Z else score in
  let score := if test (fun c => negb (isAlnum c)) p then (score + 1)%Z else score in
  score.

(** [isConsecutive] (lines 164-169): each code unit is its predecessor + 1. *)
Fixpoint isConsecutive (chunk : jsstring) : bool :=
  match chunk with
  | [] => true
  | a :: rest =>
      match rest with
      | [] => true
      | b :: _ => if negb (b =? a + 1)%N then false else isConsecutive rest
      end
  end.

(** [(.)\1{3,}] at a start position: a code unit other than a line
    terminator, then at least three copies of it. *)
Definition repeat4Here (s : jsstring) : bool :=
  match s with
  | a :: rest => isDot a && startsWith rest [a; a; a]
  | [] => false
  end.

(** [isRepeatedChars] (lines 172-183). *)
Definition isRepeatedChars (s : jsstring) : bool :=
  if search repeat4Here s then true
  else
    existsb (fun size =>
      existsb (fun i =>
        let a := substr s i size in
        let b := substr s (i + size) size in
        bool_decide (a = b))
        (seq 0 (length s - size * 2 + 1)))
      (seq 2 (length s / 2 - 1)).

(** [(19\d{2}|20[0-2]\d)] at a start position. *)
Definition yearHere (s : jsstring) : bool :=
  match s with
  | a :: b :: c :: d :: _ =>
      ((a =? 49)%N && (b =? 57)%N && isDigit c && isDigit d) ||
      ((a =? 50)%N && (b =? 48)%N && ((48 <=? c)%N && (c <=? 50)%N) && isDigit d)
  | _ => false
  end.

(** [containsYear] (lines 193-196). *)
Definition containsYear (s : jsstring) : bool := search yearHere s.

(** [[a-z]+\d{2,}] under /i at a start position. *)
Definition twoDigitsHere (s : jsstring) : bool :=
  match s with
  | c :: d :: _ => isDigit c && isDigit d
  | _ => false
  end.

Fixpoint nameDigitsHere (s : jsstring) : bool :=
  match s with
  | a :: rest => isLetter a && (nameDigitsHere rest || twoDigitsHere rest)
  | [] => false
  end.

(** [looksLikeEmailOrUsername] (lines 199-204). *)
Definition looksLikeEmailOrUsername (s : jsstring) : bool :=
  if includes s (str "@") then true
  else if search nameDigitsHere s then true
  else false.

(** ** The page: what onInput writes, and what it keeps across an await *)

Module UI.
Inductive color := bad | warn | good.

(** The texts onInput and clearUIIfEmpty give [pwnedEl] (with their colour). *)
Inductive pwned :=
| Dash                       (* the dash of an empty page *)
| Checking                   (* 'Checking HIBP...' *)
| Found (pwnCount : Z)       (* 'FOUND in <pwnCount> breaches' *)
| NotFound                   (* 'Not found in known breaches' *)
| Unavailable.               (* 'HIBP check unavailable' *)

#[global] Instance pwned_eq_dec : EqDecision pwned.
Proof. solve_decision. Defined.

Record ui := {
  sha1El : option jsstring;        (* None is the dash *)
  pwnedEl : pwned;
  entropyEl : option R;            (* None is the dash *)
  suggestionsEl : list string;     (* the tips shown, one per line *)
  flagsEl : list Flag;             (* the flags rendered, in order *)
  fillWidth : Z;                   (* (score / 5) * 100 percent, exactly *)
  fillBackground : color;
  strengthText : string
}.
End UI.

Module Frame.
(** The locals of one onInput call that are live after its second await. *)
Record locals := {
  value : jsstring;
  sha1 : jsstring;
  flags : list Flag;
  adjustedScore : Z
}.

(** A suspended onInput call. *)
Inductive frame :=
| AwaitSha1 (value : jsstring)
| AwaitPwned (l : locals).
End Frame.

(** What [fetch] settles with: a rejection, or a response. *)
Inductive FetchResult :=
| NetworkError
| Response (status : Z) (text : jsstring).

(** How an awaited async call completes. *)
Inductive Completion (A : Type) :=
| Returned (a : A)
| Thrown.
Arguments Returned {A} a.
Arguments Thrown {A}.

(** [res.ok]: the status is in the range 200-299. *)
Definition ok (status : Z) : bool := (200 <=? status)%Z && (status <=? 299)%Z.

(** ** The functions of app.js that convert case, and onInput *)

Section Analyzer.

Variable unicodeLower unicodeUpper : CaseMap.

(** [commonPasswordCheck] (lines 150-152). *)
Definition commonPasswordCheck (p : jsstring) : bool :=
  bool_decide (toLowerCase unicodeLower p ∈ commonPasswords).

(** [isSequential] (lines 155-163). *)
Definition isSequential (s : jsstring) : bool :=
  let lower := toLowerCase unicodeLower s in
  existsb (fun i =>
    let chunk := slice lower i (i + 4) in
    isConsecutive chunk)
    (seq 0 (length lower - 3)).

(** The pattern list of isKeyboardPattern (line 187). *)
Definition patterns : list jsstring :=
  map str ["qwerty"; "asdfgh"; "zxcvbn"; "1q2w"; "qaz"; "wasd"; "qwert";
           "passw"; "!@#"; "$%^"; "123qwe"]%string.

(** [isKeyboardPattern] (lines 186-190). *)
Definition isKeyboardPattern (s : jsstring) : bool :=
  let lower := toLowerCase unicodeLower s in
  existsb (fun p => includes lower p) patterns.

(** The six flag literals of onInput (lines 67-72) and the late one (line 91). *)
Definition commonFlag : Flag :=
  {| Flag.t := "Common password"; Flag.s := Flag.danger;
     Flag.detail := "Matches a commonly used password list" |}.
Definition sequentialFlag : Flag :=
  {| Flag.t := "Sequential characters"; Flag.s := Flag.warn;
     Flag.detail := "Contains sequential characters like 1234 or abcd" |}.
Definition repeatedFlag : Flag :=
  {| Flag.t := "Repeated characters"; Flag.s := Flag.warn;
     Flag.detail := "Contains repeated characters or repeated substrings" |}.
Definition keyboardFlag : Flag :=
  {| Flag.t := "Keyboard pattern"; Flag.s := Flag.warn;
     Flag.detail := "Contains keyboard sequences like qwerty or asdf" |}.
Definition yearFlag : Flag :=
  {| Flag.t := "Year detected"; Flag.s := Flag.info;
     Flag.detail := "Contains a year (e.g., 1990, 2023). Avoid using birth years" |}.
Definition emailFlag : Flag :=
  {| Flag.t := "Email/username pattern"; Flag.s := Flag.info;
     Flag.detail := "Looks like an email/username pattern. Avoid reuse across accounts" |}.
Definition breachFlag (pwnCount : Z) : Flag :=
  {| Flag.t := "Found in breaches"; Flag.s := Flag.danger;
     Flag.detail := "This password appears in public breaches ("
                      ++ numberToString pwnCount ++ " times)" |}.

(** Step 4 of onInput (lines 66-72): [push] appends. *)
Definition patternFlags (value : jsstring) : list Flag :=
  let flags := [] in
  let flags := if commonPasswordCheck value then flags ++ [commonFlag] else flags in
  let flags := if isSequential value then flags ++ [sequentialFlag] else flags in
  let flags := if isRepeatedChars value then flags ++ [repeatedFlag] else flags in
  let flags := if isKeyboardPattern value then flags ++ [keyboardFlag] else flags in
  let flags := if containsYear value then flags ++ [yearFlag] else flags in
  let flags := if looksLikeEmailOrUsername value then flags ++ [emailFlag] else flags in
  flags.

(** Step 5 of onInput (lines 75-77). *)
Definition adjustScore (baseScore : Z) (flags : list Flag) : Z :=
  let adjustedScore := baseScore in
  if existsb (fun f => bool_decide (Flag.s f = Flag.danger)) flags
  then Z.max 0 (adjustedScore - 2)
  else if (0 <? length flags)%nat then Z.max 0 (adjustedScore - 1)
  else adjustedScore.

(** The score onInput shows before the breach lookup settles. *)
Definition adjustedScore (value : jsstring) : Z :=
  adjustScore (computeScore value) (patternFlags value).

(** [updateStrengthUI] (lines 208-231). *)
Definition labels : list string :=
  ["Very Weak"; "Weak"; "Medium"; "Strong"; "Very Strong"]%string.

Definition strengthLabel (score : Z) : string :=
  match labels !! Z.to_nat (Z.max 0 (score - 1)) with
  | Some label => label
  | None => "Very Weak"%string          (* [|| labels[0]] *)
  end.

Definition tipsFor (password : jsstring) : list string :=
  let tips := [] in
  let tips := if (length password <? 12)%nat
              then tips ++ ["Increase length to at least 12+ characters."%string] else tips in
  let tips := if negb (test isUpper password)
              then tips ++ ["Add an uppercase letter (A-Z)."%string] else tips in
  let tips := if negb (test isLower password)
              then tips ++ ["Add a lowercase letter (a-z)."%string] else tips in
  let tips := if negb (test isDigit password)
              then tips ++ ["Include numbers (0-9)."%string] else tips in
  let tips := if negb (test (fun c => negb (isAlnum c)) password)
              then tips ++ ["Add special characters like @, #, %, !."%string] else tips in
  tips.

Definition updateStrengthUI (score : Z) (password : jsstring) (u : UI.ui) : UI.ui :=
  {| UI.sha1El := UI.sha1El u;
     UI.pwnedEl := UI.pwnedEl u;
     UI.entropyEl := UI.entropyEl u;
     UI.suggestionsEl := tipsFor password;
     UI.flagsEl := UI.flagsEl u;
     UI.fillWidth := 20 * score;
     UI.fillBackground :=
       if (score <=? 1)%Z then UI.bad
       else if (score =? 2)%Z then UI.warn
       else UI.good;
     UI.strengthText := "Strength: " ++ strengthLabel score |}.

(** [renderFlags] (lines 234-242): the flags become the children of flagsEl. *)
Definition renderFlags (flags : list Flag) (u : UI.ui) : UI.ui :=
  {| UI.sha1El := UI.sha1El u;
     UI.pwnedEl := UI.pwnedEl u;
     UI.entropyEl := UI.entropyEl u;
     UI.suggestionsEl := UI.suggestionsEl u;
     UI.flagsEl := flags;
     UI.fillWidth := UI.fillWidth u;
     UI.fillBackground := UI.fillBackground u;
     UI.strengthText := UI.strengthText u |}.

Definition setPwned (p : UI.pwned) (u : UI.ui) : UI.ui :=
  {| UI.sha1El := UI.sha1El u;
     UI.pwnedEl := p;
     UI.entropyEl := UI.entropyEl u;
     UI.suggestionsEl := UI.suggestionsEl u;
     UI.flagsEl := UI.flagsEl u;
     UI.fillWidth := UI.fillWidth u;
     UI.fillBackground := UI.fillBackground u;
     UI.strengthText := UI.strengthText u |}.

Definition setSha1Entropy (sha1 : jsstring) (entropy : R) (u : UI.ui) : UI.ui :=
  {| UI.sha1El := Some sha1;
     UI.pwnedEl := UI.pwnedEl u;
     UI.entropyEl := Some (Math_round (entropy * 10) / 10)%R;
     UI.suggestionsEl := UI.suggestionsEl u;
     UI.flagsEl := UI.flagsEl u;
     UI.fillWidth := UI.fillWidth u;
     UI.fillBackground := UI.fillBackground u;
     UI.strengthText := UI.strengthText u |}.

(** [clearUIIfEmpty] (lines 107-117). *)
Definition clearUIIfEmpty (value : jsstring) (u : UI.ui) : UI.ui :=
  match value with
  | [] =>
      updateStrengthUI 0 []
        {| UI.sha1El := None;
           UI.pwnedEl := UI.Dash;
           UI.entropyEl := None;
           UI.suggestionsEl := [];
           UI.flagsEl := [];
           UI.fillWidth := UI.fillWidth u;
           UI.fillBackground := UI.fillBackground u;
           UI.strengthText := UI.strengthText u |}
  | _ :: _ => u
  end.

(** [sha1hex] (lines 120-124), from the 20 bytes the digest call resolves
    with: two hex digits per byte, upper-cased. *)
Definition sha1hex (h : list Byte.byte) : jsstring :=
  toUpperCase unicodeUpper
    (concat (map (fun x => padStart2 (toString16 (Byte.to_N x))) h)).

(** [parseInt(count, 10) || 0]: NaN and 0 are falsy. *)
Definition parseCount (count : option jsstring) : Z :=
  match parseInt10 (default (str "undefined") count) with
  | Some n => if (n =? 0)%Z then 0%Z else n
  | None => 0%Z
  end.

(** The loop of checkPwned over the lines of the body (lines 256-261). *)
Fixpoint scanLines (suffix : jsstring) (lines : list jsstring) : Z :=
  match lines with
  | [] => 0%Z
  | line :: more =>
      let fields := split 58 (trim line) in
      let hashSuffix := fields !! 0%nat in
      let count := fields !! 1%nat in
      match hashSuffix with
      | None | Some [] => scanLines suffix more            (* continue *)
      | Some hashSuffix =>
          if bool_decide (toUpperCase unicodeUpper hashSuffix = suffix)
          then parseCount count
          else scanLines suffix more
      end
  end.

(** The range the request names: [sha1.slice(0,5)] and nothing else. *)
Definition requestPrefix (sha1 : jsstring) : jsstring := slice sha1 0 5.

(** [checkPwned] (lines 248-262), given what the fetch settles with. *)
Definition checkPwned (sha1 : jsstring) (res : FetchResult) : Completion Z :=
  let suffix := sliceFrom sha1 5 in
  match res with
  | NetworkError => Thrown
  | Response status text =>
      if negb (ok status) then Thrown
      else
        let lines := split 10 text in
        Returned (scanLines suffix lines)
  end.

(** onInput up to its first await (lines 49-54): [None] is the early return. *)
Definition onInput_start (value : jsstring) (u : UI.ui)
  : UI.ui * option Frame.frame :=
  let u := clearUIIfEmpty value u in
  match value with
  | [] => (u, None)
  | _ :: _ => (u, Some (Frame.AwaitSha1 value))
  end.

(** onInput between its two awaits (lines 54-85). *)
Definition onInput_hashed (value : jsstring) (h : list Byte.byte) (u : UI.ui)
  : UI.ui * Frame.locals :=
  let sha1 := sha1hex h in
  let entropy := estimateEntropy value in
  let u := setSha1Entropy sha1 entropy u in
  let baseScore := computeScore value in
  let flags := patternFlags value in
  let adjustedScore := adjustScore baseScore flags in
  let u := updateStrengthUI adjustedScore value u in
  let u := renderFlags flags u in
  let u := setPwned UI.Checking u in
  (u, {| Frame.value := value; Frame.sha1 := sha1;
         Frame.flags := flags; Frame.adjustedScore := adjustedScore |}).

(** onInput after checkPwned completes (lines 85-103): [unshift] prepends. *)
Definition onInput_settled (l : Frame.locals) (c : Completion Z) (u : UI.ui)
  : UI.ui * Frame.locals :=
  match c with
  | Returned pwnCount =>
      if (0 <? pwnCount)%Z then
        let u := setPwned (UI.Found pwnCount) u in
        if negb (existsb (fun f => bool_decide (Flag.t f = "Common password"%string))
                   (Frame.flags l))
        then
          let flags := breachFlag pwnCount :: Frame.flags l in
          let u := renderFlags flags u in
          let adjustedScore := Z.max 0 (Frame.adjustedScore l - 2) in
          let u := updateStrengthUI adjustedScore (Frame.value l) u in
          (u, {| Frame.value := Frame.value l; Frame.sha1 := Frame.sha1 l;
                 Frame.flags := flags; Frame.adjustedScore := adjustedScore |})
        else (u, l)
      else (setPwned UI.NotFound u, l)
  | Thrown => (setPwned UI.Unavailable u, l)
  end.

(** ** The event loop: input events and the settling of awaited promises *)

Record Page := {
  ui : UI.ui;
  suspended : gmap nat Frame.frame;   (* the onInput calls in flight *)
  calls : nat                          (* onInput calls made so far *)
}.

Inductive Event :=
| Input (value : jsstring)                       (* 'input' with pwd.value *)
| DigestResolved (call : nat) (h : list Byte.byte)
| FetchSettled (call : nat) (res : FetchResult).

(** One turn of the event loop; [None] when the promise named is not one
    that is awaited. *)
Definition step (pg : Page) (e : Event) : option Page :=
  match e with
  | Input value =>
      let '(u, fr) := onInput_start value (ui pg) in
      Some {| ui := u;
              suspended := match fr with
                           | Some fr => <[calls pg := fr]> (suspended pg)
                           | None => suspended pg
                           end;
              calls := S (calls pg) |}
  | DigestResolved call h =>
      match suspended pg !! call with
      | Some (Frame.AwaitSha1 value) =>
          let '(u, l) := onInput_hashed value h (ui pg) in
          Some {| ui := u;
                  suspended := <[call := Frame.AwaitPwned l]> (suspended pg);
                  calls := calls pg |}
      | _ => None
      end
  | FetchSettled call res =>
      match suspended pg !! call with
      | Some (Frame.AwaitPwned l) =>
          let '(u, _) := onInput_settled l (checkPwned (Frame.sha1 l) res) (ui pg) in
          Some {| ui := u;
                  suspended := delete call (suspended pg);
                  calls := calls pg |}
      | _ => None
      end
  end.

Fixpoint run (pg : Page) (events : list Event) : option Page :=
  match events with
  | [] => Some pg
  | e :: events =>
      match step pg e with
      | Some pg => run pg events
      | None => None
      end
  end.

End Analyzer.

(** [escapeHTML] (line 245): the ampersand, the two angle brackets and the
    double quote (code 34) are replaced by their entities, everything else
    is kept. *)
Definition escapeChar (c : N) : jsstring :=
  if (c =? 38)%N then str "&amp;"
  else if (c =? 60)%N then str "&lt;"
  else if (c =? 62)%N then str "&gt;"
  else if (c =? 34)%N then str "&quot;"
  else [c].

Definition escapeHTML (s : jsstring) : jsstring :=
  concat (map escapeChar s).

(** The markup renderFlags builds for one flag (lines 237-240), and the
    innerHTML it gives flagsEl (lines 235-241); 34 is the double quote. *)
Definition flagHTML (f : Flag) : jsstring :=
  let cls := match Flag.s f with
             | Flag.danger => str "warning"
             | _ => []
             end in
  str "<div class=" ++ [34%N] ++ str "flag " ++ cls ++ [34%N] ++ str "><strong>"
    ++ escapeHTML (str (Flag.t f)) ++ str "</strong><div>"
    ++ escapeHTML (str (Flag.detail f)) ++ str "</div></div>".

Definition flagsHTML (flags : list Flag) : jsstring :=
  match flags with
  | [] => []
  | _ :: _ => concat (map flagHTML flags)
  end.

(** The URL checkPwned fetches (line 251). *)
Definition requestUrl (sha1 : jsstring) : jsstring :=
  str "https://api.pwnedpasswords.com/range/" ++ requestPrefix sha1.

End App.

Import App.

(** ** The vocabulary of the specification *)

Module Spec.

(** "P contains a character of the class". *)
Definition contains (cls : N -> bool) (P : jsstring) : Prop :=
  Exists (fun c => cls c = true) P.

(** A symbol is "any character outside alphanumerics". *)
Definition isSymbol (c : N) : bool := negb (isAlnum c).

(** The five composition criteria of the base score. *)
Inductive Criterion := LongEnough | HasLower | HasUpper | HasDigit | HasSymbol.

Definition satisfies (P : jsstring) (k : Criterion) : Prop :=
  match k with
  | LongEnough => 8 <= length P
  | HasLower => contains isLower P
  | HasUpper => contains isUpper P
  | HasDigit => contains isDigit P
  | HasSymbol => contains isSymbol P
  end.

#[global] Instance satisfies_dec P k : Decision (satisfies P k).
Proof. destruct k; unfold satisfies, contains; apply _. Defined.

(** "The number of satisfied criteria". *)
Definition satisfiedCount (P : jsstring) : Z :=
  Z.of_nat (length (filter (satisfies P)
                      [LongEnough; HasLower; HasUpper; HasDigit; HasSymbol])).

(** "Subtract 2 if any flag has severity danger, else 1 if any flag is
    present". *)
Definition penalty (flags : list Flag) : Z :=
  if decide (Exists (fun f => Flag.s f = Flag.danger) flags) then 2
  else if decide (flags <> []) then 1
  else 0.

(** "The sum of 26 if P contains a lowercase letter, 26 if an uppercase
    letter, 10 if a digit, 32 if any character outside alphanumerics". *)
Definition alphabetSize (P : jsstring) : Z :=
  (if decide (contains isLower P) then 26 else 0) +
  (if decide (contains isUpper P) then 26 else 0) +
  (if decide (contains isDigit P) then 10 else 0) +
  (if decide (contains isSymbol P) then 32 else 0).

(** How often a flag occurs in a flag list. *)
Definition occurrences (f : Flag) (flags : list Flag) : nat :=
  length (filter (fun g => g = f) flags).

(** The flags a table of detectors raises on an input: one per detector
    that answers true, in the order of the table. *)
Definition raised {A : Type} (x : A) (ds : list ((A -> bool) * Flag)) : list Flag :=
  map snd (filter (fun d => fst d x = true) ds).

(** The six detectors in the order onInput consults them, each with the
    flag it raises. *)
Definition detectors (unicodeLower : CaseMap) : list ((jsstring -> bool) * Flag) :=
  [ (commonPasswordCheck unicodeLower, commonFlag);
    (isSequential unicodeLower, sequentialFlag);
    (isRepeatedChars, repeatedFlag);
    (isKeyboardPattern unicodeLower, keyboardFlag);
    (containsYear, yearFlag);
    (looksLikeEmailOrUsername, emailFlag) ].

(** "A common-password flag is present". *)
Definition hasCommonFlag (flags : list Flag) : Prop :=
  Exists (fun f => Flag.t f = "Common password"%string) flags.

(** "P contains the literal as a substring, case-insensitively": some
    substring of P becomes the literal when its ASCII letters are lowered. *)
Definition containsIgnoringCase (P lit : jsstring) : Prop :=
  exists pre w post, P = pre ++ w ++ post /\ map asciiLower w = lit.

(** The patterns of isKeyboardPattern other than "passw". *)
Definition keyRowPatterns : list jsstring :=
  map str ["qwerty"; "asdfgh"; "zxcvbn"; "1q2w"; "qaz"; "wasd"; "qwert";
           "!@#"; "$%^"; "123qwe"]%string.

(** The record a line of the range response holds: the text before the
    first ':' of the trimmed line, and the text up to the next ':' (none
    when the line has no ':'). *)
Definition recordSuffix (line : jsstring) : jsstring :=
  default [] (split 58 (trim line) !! 0).
Definition recordCount (line : jsstring) : option jsstring :=
  split 58 (trim line) !! 1.

(** "The record's suffix matches the digest's": as checkPwned compares them. *)
Definition matchesSuffix (unicodeUpper : CaseMap) (suffix line : jsstring) : Prop :=
  recordSuffix line <> [] /\ toUpperCase unicodeUpper (recordSuffix line) = suffix.

#[global] Instance matchesSuffix_dec unicodeUpper suffix line :
  Decision (matchesSuffix unicodeUpper suffix line).
Proof. unfold matchesSuffix. apply _. Defined.

(** A blank line: nothing but white space. *)
Definition isBlank (line : jsstring) : Prop := trim line = [].

(** Equal up to the case of ASCII letters. *)
Definition sameIgnoringCase (a b : jsstring) : Prop :=
  map asciiLower a = map asciiLower b.

(** A Digest: 40 upper-case hexadecimal characters. *)
Definition isUpperHex (c : N) : bool :=
  isDigit c || ((65 <=? c)%N && (c <=? 70)%N).
Definition isDigest (sha1 : jsstring) : Prop :=
  length sha1 = 40 /\ Forall (fun c => isUpperHex c = true) sha1.

#[global] Instance isDigest_dec sha1 : Decision (isDigest sha1).
Proof. unfold isDigest. apply _. Defined.

(** "The published result": the score, the flags and the breach status the
    page shows. *)
Definition publishedResult (u : UI.ui) : Z * string * list Flag * UI.pwned :=
  (UI.fillWidth u, UI.strengthText u, UI.flagsEl u, UI.pwnedEl u).

(** What the page shows besides the digest, the entropy and the breach
    status. *)
Definition strengthAndFlags (u : UI.ui)
  : list Flag * Z * UI.color * string * list string :=
  (UI.flagsEl u, UI.fillWidth u, UI.fillBackground u, UI.strengthText u,
   UI.suggestionsEl u).

(** A string of ASCII characters. *)
Definition isAscii (s : jsstring) : Prop := Forall (fun c => (c < 128)%N) s.

(** How often a code unit occurs in a string. *)
Definition countOf (c : N) (s : jsstring) : nat :=
  length (filter (fun x => x = c) s).

(** The run c, c+1, ..., c+n-1 of ascending code units. *)
Definition ascendingFrom (c : N) (n : nat) : jsstring :=
  map (fun i => (c + N.of_nat i)%N) (seq 0 n).

(** Q has every character of P and is at least as long. *)
Definition extends (P Q : jsstring) : Prop :=
  (forall c, c ∈ P -> c ∈ Q) /\ length P <= length Q.

(** The characters escapeHTML replaces: the ampersand, the two angle
    brackets and the double quote. *)
Definition escaped : list N := [38; 60; 62; 34]%N.

(** The value of a decimal numeral: its digits weighted by the powers of
    ten. *)
Fixpoint numeralValue (ds : jsstring) : Z :=
  match ds with
  | [] => 0
  | d :: rest => (Z.of_N d - 48) * 10 ^ Z.of_nat (length rest) + numeralValue rest
  end.

(** "The COUNT field reads as n": after optional white space and an
    optional sign the field goes on with a decimal numeral, which no
    further digit follows, and n is its value with that sign. *)
Definition countReads (field : jsstring) (n : Z) : Prop :=
  exists ws sign ds rest,
    field = ws ++ sign ++ ds ++ rest /\
    Forall (fun c => isWhiteSpace c = true) ws /\
    (sign = [] \/ sign = [43%N] \/ sign = [45%N]) /\
    ds <> [] /\
    Forall (fun c => isDigit c = true) ds /\
    (forall c, head rest = Some c -> isDigit c = false) /\
    n = (if decide (sign = [45%N]) then - numeralValue ds else numeralValue ds)%Z.

(** "An unparsable count": the record has no COUNT field, or the field
    reads as no number. *)
Definition unparsable (count : option jsstring) : Prop :=
  match count with
  | Some field => ~ exists n, countReads field n
  | None => True
  end.

(** The event resumes the suspended onInput call with this number: it
    settles the promise that call awaits. *)
Definition resumes (e : Event) (call : nat) : Prop :=
  match e with
  | Input _ => False
  | DigestResolved c _ => c = call
  | FetchSettled c _ => c = call
  end.

(** A line with white space put before and after it. *)
Definition padded (line line' : jsstring) : Prop :=
  exists ws ws',
    Forall (fun c => isWhiteSpace c = true) ws /\
    Forall (fun c => isWhiteSpace c = true) ws' /\
    line' = ws ++ line ++ ws'.

End Spec.

Import Spec.

(** ** Sample values for the closed instances below *)

(** The page before anything is typed. *)
Definition blankUI : UI.ui :=
  {| UI.sha1El := None; UI.pwnedEl := UI.Dash; UI.entropyEl := None;
     UI.suggestionsEl := []; UI.flagsEl := [];
     UI.fillWidth := 0; UI.fillBackground := UI.bad;
     UI.strengthText := "Strength: Very Weak" |}.

Definition initialPage : Page :=
  {| ui := blankUI; suspended := ∅; calls := 0 |}.

(** The locals of an onInput call on "hunter2!" with one warn flag. *)
Definition sampleLocals : Frame.locals :=
  {| Frame.value := str "hunter2!"; Frame.sha1 := [];
     Frame.flags := [keyboardFlag]; Frame.adjustedScore := 3 |}.

(** SHA-1 of "abcabc" and of "Tr0ub4dor&3xyz9Q", as the digest call gives them. *)
Definition digest_abcabc : list Byte.byte :=
  [Byte.xf8; Byte.xc1; Byte.xd8; Byte.x70; Byte.x06; Byte.xfb; Byte.xf7;
   Byte.xe5; Byte.xcc; Byte.x4b; Byte.x02; Byte.x6c; Byte.x31; Byte.x38;
   Byte.xbc; Byte.x04; Byte.x68; Byte.x83; Byte.xdc; Byte.x71].
Definition digest_strong : list Byte.byte :=
  [Byte.xea; Byte.x7f; Byte.x3e; Byte.xd9; Byte.x9a; Byte.x1d; Byte.x53;
   Byte.xcc; Byte.x58; Byte.x73; Byte.x93; Byte.x79; Byte.xb4; Byte.xb9;
   Byte.xc1; Byte.xd4; Byte.xd9; Byte.xb9; Byte.xf3; Byte.x9b].

Definition sampleDigest : jsstring :=
  str "F8C1D87006FBF7E5CC4B026C3138BC046883DC71".

(** Range responses, each line ended by CR LF: one that lists the suffix of
    [sampleDigest] (in lower case) 37 times, and one that lists neither
    sample. *)
Definition rangeBody (records : list string) : jsstring :=
  concat (map (fun r => str r ++ [13; 10]%N) records).
Definition sampleRange : jsstring :=
  rangeBody ["0018A45C4D1DEF81644B54AB7F969B88D65:1";
             "87006fbf7e5cc4b026c3138bc046883dc71:37";
             "011053FD0102E94D6AE2F8B83D76FAF94F6:2"]%string.
Definition otherRange : jsstring :=
  rangeBody ["0018A45C4D1DEF81644B54AB7F969B88D65:1";
             "011053FD0102E94D6AE2F8B83D76FAF94F6:2"]%string.

(** "abcabc" is typed, then "Tr0ub4dor&3xyz9Q" before the first breach
    check settles; the second check settles first, the first one last. *)
Definition staleTrace : list Event :=
  [ Input (str "abcabc");
    DigestResolved 0 digest_abcabc;
    Input (str "Tr0ub4dor&3xyz9Q");
    DigestResolved 1 digest_strong;
    FetchSettled 1 (Response 200 otherRange);
    FetchSettled 0 (Response 200 sampleRange) ].

(** The page once the result for the second input is published, and the
    locals of the first onInput call, still suspended. *)
Definition pageBeforeStale : Page :=
  default initialPage (run asciiOnly asciiOnly initialPage (take 5 staleTrace)).
Definition staleLocals : Frame.locals :=
  {| Frame.value := str "abcabc"; Frame.sha1 := sampleDigest;
     Frame.flags := [repeatedFlag]; Frame.adjustedScore := 0 |}.

(** * Properties *)

(** ** Lists and strings *)

Lemma existsb_Exists {A} (f : A -> bool) (l : list A) :
  existsb f l = bool_decide (Exists (fun x => f x = true) l).
Proof.
  destruct (existsb f l) eqn:E; symmetry.
  - apply bool_decide_eq_true, Exists_exists.
    apply existsb_exists in E as (x & Hx & Hf). exists x. by rewrite list_elem_of_In.
  - apply bool_decide_eq_false. intros (x & Hx & Hf)%Exists_exists.
    apply not_true_iff_false in E. apply E, existsb_exists.
    exists x. by rewrite <- list_elem_of_In.
Qed.

Lemma existsb_decide {A} (Q : A -> Prop) `{!forall x, Decision (Q x)} (l : list A) :
  existsb (fun x => bool_decide (Q x)) l = bool_decide (Exists Q l).
Proof.
  rewrite existsb_Exists. apply bool_decide_ext, Exists_proper; [|done].
  intros x. by rewrite bool_decide_eq_true.
Qed.

Lemma existsb_seq (f : nat -> bool) (start len : nat) :
  existsb f (seq start len) = true <->
  exists i, start <= i < start + len /\ f i = true.
Proof.
  rewrite existsb_exists. split.
  - intros (i & Hi%in_seq & Hf). by exists i.
  - intros (i & Hi & Hf). exists i. by rewrite in_seq.
Qed.

Lemma test_contains cls (P : jsstring) : test cls P = bool_decide (contains cls P).
Proof. apply existsb_Exists. Qed.

Lemma startsWith_spec (s p : jsstring) :
  startsWith s p = true <-> exists rest, s = p ++ rest.
Proof.
  revert s. induction p as [|x p IH]; intros s; cbn [startsWith].
  - split; [intros _; by exists s|done].
  - destruct s as [|y s].
    + split; [done|]. by intros (rest & [=]).
    + rewrite andb_true_iff, N.eqb_eq, IH. split.
      * intros (-> & rest & ->). by exists rest.
      * intros (rest & [= -> ->]). split; [done|]. by exists rest.
Qed.

Lemma search_spec (matchHere : jsstring -> bool) (s : jsstring) :
  search matchHere s = true <->
  exists pre suf, s = pre ++ suf /\ matchHere suf = true.
Proof.
  induction s as [|c s IH]; cbn [search]; rewrite orb_true_iff.
  - split.
    + intros [H|[=]]. by exists [], [].
    + intros (pre & suf & Hs & H). symmetry in Hs.
      apply app_eq_nil in Hs as [-> ->]. by left.
  - rewrite IH. split.
    + intros [H|(pre & suf & -> & H)].
      * by exists [], (c :: s).
      * by exists (c :: pre), suf.
    + intros ([|c' pre] & suf & Hs & H); cbn in Hs.
      * subst suf. by left.
      * injection Hs as -> ->. right. by exists pre, suf.
Qed.

Lemma includes_spec (s p : jsstring) :
  includes s p = true <-> exists pre post, s = pre ++ p ++ post.
Proof.
  unfold includes. rewrite search_spec. split.
  - intros (pre & suf & -> & (post & ->)%startsWith_spec). by exists pre, post.
  - intros (pre & post & ->). exists pre, (p ++ post). split; [done|].
    apply startsWith_spec. by exists post.
Qed.

Section CaseFacts.
Variable ascii : N -> N.
Variable unicode : CaseMap.

(** ASCII code units are converted one by one, whatever surrounds them. *)
Lemma convertFrom_ascii_prefix (before w rest : jsstring) :
  Forall (fun c => (c < 128)%N) w ->
  convertFrom ascii unicode before (w ++ rest)
  = map ascii w ++ convertFrom ascii unicode (before ++ w) rest.
Proof.
  intros Hw. revert before.
  induction Hw as [|c w Hc Hw IH]; intros before; cbn [convertFrom map app].
  - by rewrite app_nil_r.
  - apply N.ltb_lt in Hc. rewrite Hc, IH, <- app_assoc. reflexivity.
Qed.

Lemma convertFrom_ascii_infix (before pre w post : jsstring) :
  Forall (fun c => (c < 128)%N) w ->
  exists X Y,
    convertFrom ascii unicode before (pre ++ w ++ post) = X ++ map ascii w ++ Y.
Proof.
  intros Hw. revert before.
  induction pre as [|c pre IH]; intros before; cbn [convertFrom app].
  - exists [], (convertFrom ascii unicode (before ++ w) post).
    by apply convertFrom_ascii_prefix.
  - destruct (IH (before ++ [c])) as (X & Y & ->).
    eexists (_ ++ X), Y. by rewrite <- app_assoc.
Qed.

Lemma convertFrom_ascii (w : jsstring) :
  Forall (fun c => (c < 128)%N) w ->
  convertFrom ascii unicode [] w = map ascii w.
Proof.
  intros Hw. rewrite <- (app_nil_r w) at 1.
  rewrite convertFrom_ascii_prefix by done. cbn [convertFrom]. by rewrite app_nil_r.
Qed.
End CaseFacts.

Lemma asciiLower_ge (c : N) : (c <= asciiLower c)%N.
Proof. unfold asciiLower. destruct (isUpper c); lia. Qed.

Lemma lowered_is_ascii (w lit : jsstring) :
  map asciiLower w = lit -> Forall (fun c => (c < 128)%N) lit ->
  Forall (fun c => (c < 128)%N) w.
Proof.
  intros <- Hlit. induction w as [|c w IH]; [done|].
  cbn [map] in Hlit. apply Forall_cons in Hlit as [Hc Hw].
  apply Forall_cons. split; [|by apply IH].
  pose proof (asciiLower_ge c). lia.
Qed.

Lemma toLowerCase_contains (unicodeLower : CaseMap) (P lit : jsstring) :
  Forall (fun c => (c < 128)%N) lit ->
  containsIgnoringCase P lit ->
  includes (toLowerCase unicodeLower P) lit = true.
Proof.
  intros Hlit (pre & w & post & -> & Hw).
  apply includes_spec. unfold toLowerCase.
  destruct (convertFrom_ascii_infix asciiLower unicodeLower [] pre w post)
    as (X & Y & ->); [by eapply lowered_is_ascii|].
  rewrite Hw. eauto.
Qed.

(** ** Composition score and entropy *)

Lemma computeScore_count (P : jsstring) : computeScore P = satisfiedCount P.
Proof.
  unfold computeScore, satisfiedCount.
  rewrite !test_contains. fold isSymbol.
  rewrite !filter_cons, filter_nil.
  change (satisfies P LongEnough) with (8 <= length P).
  change (satisfies P HasLower) with (contains isLower P).
  change (satisfies P HasUpper) with (contains isUpper P).
  change (satisfies P HasDigit) with (contains isDigit P).
  change (satisfies P HasSymbol) with (contains isSymbol P).
  destruct (Nat.leb_spec 8 (length P));
  repeat case_bool_decide; repeat case_decide; simpl; try lia; try tauto.
Qed.

Lemma computeScore_range (P : jsstring) : (0 <= computeScore P <= 5)%Z.
Proof.
  unfold computeScore.
  repeat match goal with |- context [if ?b then _ else _] => destruct b end; lia.
Qed.

Lemma adjustScore_penalty (base : Z) (flags : list Flag) :
  (0 <= base)%Z -> adjustScore base flags = Z.max 0 (base - penalty flags).
Proof.
  intros Hb. unfold adjustScore, penalty.
  rewrite (existsb_decide (fun f => Flag.s f = Flag.danger)).
  case_bool_decide; repeat case_decide; try tauto; try lia;
    destruct flags; simpl in *; try congruence; lia.
Qed.

Lemma penalty_range (flags : list Flag) : (0 <= penalty flags <= 2)%Z.
Proof. unfold penalty. repeat case_decide; lia. Qed.

Lemma charsetSize_alphabetSize (P : jsstring) : charsetSize P = alphabetSize P.
Proof.
  unfold charsetSize, alphabetSize. rewrite !test_contains. fold isSymbol.
  repeat case_bool_decide; repeat case_decide; try tauto; lia.
Qed.

(** Every code unit is in one of the four classes. *)
Lemma class_cover (c : N) :
  isLower c = true \/ isUpper c = true \/ isDigit c = true \/ isSymbol c = true.
Proof.
  unfold isSymbol, isAlnum.
  destruct (isLower c), (isUpper c), (isDigit c); simpl; tauto.
Qed.

Lemma alphabetSize_range (P : jsstring) :
  (P = [] /\ alphabetSize P = 0%Z) \/ (P <> [] /\ (10 <= alphabetSize P)%Z).
Proof.
  destruct P as [|c P].
  - left. split; [done|]. unfold alphabetSize, contains.
    repeat case_decide; try lia;
      match goal with H : Exists _ [] |- _ => by apply Exists_nil in H end.
  - right. split; [done|]. unfold alphabetSize.
    destruct (class_cover c) as [H|[H|[H|H]]];
      repeat case_decide; try lia; exfalso;
      match goal with H' : ~ contains _ _ |- _ => apply H'; by left end.
Qed.

Lemma Math_log2_pos (n : Z) : (2 <= n)%Z -> (0 < Math_log2 (IZR n))%R.
Proof.
  intros Hn. unfold Math_log2.
  assert (H2 : (0 < ln 2)%R).
  { rewrite <- ln_1. apply ln_increasing; lra. }
  assert (Hx : (0 < ln (IZR n))%R).
  { rewrite <- ln_1. apply ln_increasing; [lra|]. apply IZR_lt. lia. }
  apply Rdiv_lt_0_compat; assumption.
Qed.

(** C2: the entropy estimate is log2(S) * length(P), where S sums 26, 26, 10
    and 32 over the character classes present in P, and is 0 when S is 0;
    it is never negative, and it is 0 exactly for the empty password.
    (Numbers are read as real numbers.) *)
Theorem entropy_estimate (P : jsstring) :
  charsetSize P = alphabetSize P /\
  estimateEntropy P
    = (if decide (alphabetSize P = 0%Z) then 0
       else Math_log2 (IZR (alphabetSize P)) * INR (length P))%R /\
  (0 <= estimateEntropy P)%R /\
  (estimateEntropy P = 0%R <-> P = []).
Proof.
  split; [apply charsetSize_alphabetSize|].
  unfold estimateEntropy. rewrite charsetSize_alphabetSize.
  destruct (alphabetSize_range P) as [[-> Hz]|[Hne Hge]].
  - rewrite Hz. simpl. split; [done|]. split; [lra|done].
  - destruct (Z.eqb_spec (alphabetSize P) 0) as [E|_]; [lia|].
    case_decide; [lia|]. split; [done|].
    assert (Hl : (0 < INR (length P))%R).
    { apply lt_0_INR. destruct P; [done|simpl; lia]. }
    pose proof (Math_log2_pos (alphabetSize P) ltac:(lia)) as Hp.
    assert (Hm : (0 < Math_log2 (IZR (alphabetSize P)) * INR (length P))%R)
      by (apply Rmult_lt_0_compat; assumption).
    split; [lra|]. split; [lra|done].
Qed.

(** ** Repeated characters *)

(** A run of four equal code units is two adjacent equal pairs. *)
Lemma replicate_four (c : N) (n : nat) :
  4 <= n -> replicate n c = [c; c] ++ [c; c] ++ replicate (n - 4) c.
Proof.
  intros Hn. replace n with (4 + (n - 4)) at 1 by lia. reflexivity.
Qed.

(** The two loops of isRepeatedChars find any two adjacent copies. *)
Lemma adjacent_copies_found (s pre w post : jsstring) :
  2 <= length w -> s = pre ++ w ++ w ++ post ->
  existsb (fun size =>
      existsb (fun i => bool_decide (substr s i size = substr s (i + size) size))
        (seq 0 (length s - size * 2 + 1)))
    (seq 2 (length s / 2 - 1)) = true.
Proof.
  intros Hw Hs.
  assert (Hlen : length s = length pre + (2 * length w + length post)).
  { subst s. rewrite !length_app. lia. }
  assert (Hhalf : length w <= length s / 2).
  { apply Nat.div_le_lower_bound; lia. }
  apply existsb_seq. exists (length w). split; [lia|].
  apply existsb_seq. exists (length pre). split; [lia|].
  apply bool_decide_eq_true. unfold substr. subst s.
  rewrite drop_app_length.
  rewrite take_app_length.
  rewrite (app_assoc pre w), <- (length_app pre w), drop_app_length.
  by rewrite take_app_length.
Qed.

(** C8: isRepeatedChars answers true exactly when some character occurs 4
    or more times in a row, or, for some length k from 2 up to half the
    length of the password, two adjacent substrings of length k are equal. *)
Theorem isRepeatedChars_spec (P : jsstring) :
  isRepeatedChars P = true <->
  (exists (c : N) (n : nat) (pre post : jsstring),
      4 <= n /\ P = pre ++ replicate n c ++ post) \/
  (exists (k : nat) (pre w post : jsstring),
      2 <= k <= length P / 2 /\ length w = k /\ P = pre ++ w ++ w ++ post).
Proof.
  unfold isRepeatedChars. split.
  - destruct (search repeat4Here P) eqn:Hre.
    + intros _. left.
      apply search_spec in Hre as (pre & suf & -> & Hm).
      destruct suf as [|a rest]; [done|]. cbn [repeat4Here] in Hm.
      apply andb_true_iff in Hm as [_ (post & ->)%startsWith_spec].
      by exists a, 4, pre, post.
    + intros (size & Hsize & (i & Hi & Heq)%existsb_seq)%existsb_seq. right.
      apply bool_decide_eq_true in Heq. unfold substr in Heq.
      assert (Hhalf : size * 2 <= length P).
      { pose proof (Nat.Div0.mul_div_le (length P) 2). lia. }
      exists size, (take i P), (take size (drop i P)), (drop (i + size + size) P).
      split; [lia|]. split; [rewrite length_take, length_drop; lia|].
      rewrite Heq at 2.
      rewrite <- (take_drop i P) at 1. f_equal.
      rewrite <- (take_drop size (drop i P)) at 1. f_equal.
      rewrite drop_drop.
      rewrite <- (take_drop size (drop (i + size) P)) at 1. f_equal.
      by rewrite drop_drop.
  - intros Hspec.
    assert (Hpair : exists pre w post,
               2 <= length w /\ P = pre ++ w ++ w ++ post).
    { destruct Hspec as [(c & n & pre & post & Hn & ->)
                        |(k & pre & w & post & Hk & Hw & ->)].
      - exists pre, [c; c], (replicate (n - 4) c ++ post). split; [done|].
        rewrite (replicate_four c n Hn). by rewrite <- !app_assoc.
      - exists pre, w, post. split; [lia|done]. }
    destruct Hpair as (pre & w & post & Hw & HP).
    destruct (search repeat4Here P); [done|].
    by apply (adjacent_copies_found P pre w post).
Qed.

(** ** Tables of detectors *)

Lemma occurrences_absent (f : Flag) (flags : list Flag) :
  f ∉ flags -> occurrences f flags = 0.
Proof.
  intros Hf. unfold occurrences.
  induction flags as [|g flags IH]; [done|].
  apply not_elem_of_cons in Hf as [Hne Hf].
  rewrite filter_cons. case_decide; [congruence|]. by apply IH.
Qed.

Lemma occurrences_cons (f g : Flag) (flags : list Flag) :
  occurrences f (g :: flags)
  = (if decide (g = f) then 1 else 0) + occurrences f flags.
Proof. unfold occurrences. rewrite filter_cons. by case_decide. Qed.

Section Table.
Context {A : Type} (x : A).
Implicit Types (ds : list ((A -> bool) * Flag)) (f g : Flag) (p : A -> bool).

Lemma raised_cons p f ds :
  raised x ((p, f) :: ds) = (if p x then [f] else []) ++ raised x ds.
Proof.
  unfold raised. rewrite filter_cons. cbn [fst].
  destruct (p x); [rewrite decide_True by done|rewrite decide_False by done]; done.
Qed.

Lemma raised_subset ds f : f ∈ raised x ds -> f ∈ map snd ds.
Proof.
  unfold raised. rewrite !list_elem_of_fmap.
  intros (d & -> & Hd). exists d. split; [done|].
  by apply list_elem_of_filter in Hd as [_ Hd].
Qed.

Lemma raised_intro ds p f : (p, f) ∈ ds -> p x = true -> f ∈ raised x ds.
Proof.
  intros Hin Hp. unfold raised. apply list_elem_of_fmap. exists (p, f).
  split; [done|]. by apply list_elem_of_filter.
Qed.

(** In a table whose flags are pairwise distinct, a detector that answers
    true contributes its flag once, and one that answers false never. *)
Lemma occurrences_raised ds p f :
  NoDup (map snd ds) -> (p, f) ∈ ds ->
  occurrences f (raised x ds) = if p x then 1 else 0.
Proof.
  induction ds as [|[q g] ds IH]; intros Hnd Hin.
  - by apply elem_of_nil in Hin.
  - cbn [map snd] in Hnd. apply NoDup_cons in Hnd as [Hd Hnd].
    rewrite raised_cons.
    apply elem_of_cons in Hin as [[= <- <-]|Hin].
    + destruct (p x); cbn [app].
      * rewrite occurrences_cons, decide_True by done.
        rewrite occurrences_absent; [done|]. intros Hf. by apply Hd, raised_subset.
      * apply occurrences_absent. intros Hf. by apply Hd, raised_subset.
    + assert (Hne : g <> f).
      { intros ->. apply Hd. apply list_elem_of_fmap. by exists (p, f). }
      destruct (q x); cbn [app];
        [rewrite occurrences_cons, decide_False by done|]; by apply IH.
Qed.

(** When only the first detector of a table raises a danger flag, a danger
    flag can only stand first. *)
Lemma danger_first p f ds i g :
  Forall (fun g => Flag.s g <> Flag.danger) (map snd ds) ->
  raised x ((p, f) :: ds) !! i = Some g -> Flag.s g = Flag.danger ->
  i = 0 /\ g = f /\ p x = true.
Proof.
  intros Hds Hi Hg. rewrite raised_cons in Hi.
  assert (Hlater : forall j, raised x ds !! j = Some g -> False).
  { intros j Hj%list_elem_of_lookup_2%raised_subset.
    rewrite Forall_forall in Hds. by apply (Hds g). }
  destruct (p x), i as [|i]; cbn [app] in Hi.
  - injection Hi as ->. done.
  - by apply Hlater in Hi.
  - by apply Hlater in Hi.
  - by apply Hlater in Hi.
Qed.
End Table.

(** ** The second half of onInput *)

Lemma onInput_settled_found (l : Frame.locals) (pwnCount : Z) (u : UI.ui) :
  (0 < pwnCount)%Z ->
  onInput_settled l (Returned pwnCount) u
  = if decide (hasCommonFlag (Frame.flags l))
    then (setPwned (UI.Found pwnCount) u, l)
    else
      let flags := breachFlag pwnCount :: Frame.flags l in
      let adjustedScore := Z.max 0 (Frame.adjustedScore l - 2) in
      (updateStrengthUI adjustedScore (Frame.value l)
         (renderFlags flags (setPwned (UI.Found pwnCount) u)),
       {| Frame.value := Frame.value l; Frame.sha1 := Frame.sha1 l;
          Frame.flags := flags; Frame.adjustedScore := adjustedScore |}).
Proof.
  intros Hpos. unfold onInput_settled, hasCommonFlag.
  rewrite (existsb_decide (fun f => Flag.t f = "Common password"%string)).
  destruct (Z.ltb_spec 0 pwnCount); [|lia].
  case_bool_decide; cbn [negb].
  - by rewrite decide_True.
  - by rewrite decide_False.
Qed.

Lemma onInput_settled_not_found (l : Frame.locals) (pwnCount : Z) (u : UI.ui) :
  (pwnCount <= 0)%Z ->
  onInput_settled l (Returned pwnCount) u = (setPwned UI.NotFound u, l).
Proof.
  intros Hn. unfold onInput_settled. by destruct (Z.ltb_spec 0 pwnCount); [lia|].
Qed.

(** What the second half of onInput leaves in its locals. *)
Lemma onInput_settled_locals (l : Frame.locals) (c : Completion Z) (u : UI.ui) :
  snd (onInput_settled l c u)
  = match c with
    | Returned pwnCount =>
        if decide ((0 < pwnCount)%Z /\ ~ hasCommonFlag (Frame.flags l))
        then {| Frame.value := Frame.value l; Frame.sha1 := Frame.sha1 l;
                Frame.flags := breachFlag pwnCount :: Frame.flags l;
                Frame.adjustedScore := Z.max 0 (Frame.adjustedScore l - 2) |}
        else l
    | Thrown => l
    end.
Proof.
  destruct c as [pwnCount|]; [|done].
  destruct (Z.lt_ge_cases 0 pwnCount) as [Hpos|Hneg].
  - rewrite onInput_settled_found by done.
    destruct (decide (hasCommonFlag (Frame.flags l))).
    + by rewrite decide_False by tauto.
    + by rewrite decide_True by tauto.
  - rewrite onInput_settled_not_found by done. by rewrite decide_False by lia.
Qed.

(** C4: when the breach check returns a positive count, the "Found in
    breaches" danger flag is put in front of the flag list and the adjusted
    score drops by a further 2 (not below 0) exactly when no common-password
    flag is present; when one is present, the flag list and the adjusted
    score stay as they were. *)
Theorem breach_found_penalty (l : Frame.locals) (pwnCount : Z) (u : UI.ui) :
  (0 < pwnCount)%Z ->
  let u' := fst (onInput_settled l (Returned pwnCount) u) in
  let l' := snd (onInput_settled l (Returned pwnCount) u) in
  (~ hasCommonFlag (Frame.flags l) ->
     Frame.flags l' = breachFlag pwnCount :: Frame.flags l /\
     Flag.t (breachFlag pwnCount) = "Found in breaches"%string /\
     Flag.s (breachFlag pwnCount) = Flag.danger /\
     Frame.adjustedScore l' = Z.max 0 (Frame.adjustedScore l - 2) /\
     UI.flagsEl u' = Frame.flags l' /\
     UI.fillWidth u' = (20 * Frame.adjustedScore l')%Z /\
     UI.strengthText u'
       = ("Strength: " ++ strengthLabel (Frame.adjustedScore l'))%string) /\
  (hasCommonFlag (Frame.flags l) ->
     Frame.flags l' = Frame.flags l /\
     Frame.adjustedScore l' = Frame.adjustedScore l /\
     UI.flagsEl u' = UI.flagsEl u /\
     UI.fillWidth u' = UI.fillWidth u /\
     UI.strengthText u' = UI.strengthText u).
Proof.
  intros Hpos u' l'. subst u' l'. rewrite onInput_settled_found by done.
  split; intros Hc.
  - rewrite decide_False by done. cbn. done.
  - rewrite decide_True by done. cbn. done.
Qed.

(** C4 at work: 37 breaches, one warn flag, adjusted score 3. *)
Lemma breach_found_penalty_witness :
  Frame.flags (snd (onInput_settled sampleLocals (Returned 37%Z) blankUI))
    = [breachFlag 37; keyboardFlag] /\
  Frame.adjustedScore (snd (onInput_settled sampleLocals (Returned 37%Z) blankUI))
    = 1%Z.
Proof.
  destruct (breach_found_penalty sampleLocals 37 blankUI) as [Hadd _]; [lia|].
  destruct Hadd as (Hf & _ & _ & Ha & _).
  - unfold hasCommonFlag, sampleLocals. cbn [Frame.flags].
    rewrite Exists_cons, Exists_nil. cbn. intros [[=]|[]].
  - split; [exact Hf|exact Ha].
Defined.

(** ** The flags of one password *)

Section Facts.

Variable unicodeLower unicodeUpper : CaseMap.

Local Abbreviation toLowerCase := (toLowerCase unicodeLower).
Local Abbreviation commonPasswordCheck := (commonPasswordCheck unicodeLower).
Local Abbreviation isSequential := (isSequential unicodeLower).
Local Abbreviation isKeyboardPattern := (isKeyboardPattern unicodeLower).
Local Abbreviation patternFlags := (patternFlags unicodeLower).
Local Abbreviation adjustedScore := (adjustedScore unicodeLower).
Local Abbreviation detectors := (detectors unicodeLower).
Local Abbreviation onInput_hashed := (onInput_hashed unicodeLower unicodeUpper).

Lemma patternFlags_explicit (P : jsstring) :
  patternFlags P
  = (if commonPasswordCheck P then [commonFlag] else []) ++
    (if isSequential P then [sequentialFlag] else []) ++
    (if isRepeatedChars P then [repeatedFlag] else []) ++
    (if isKeyboardPattern P then [keyboardFlag] else []) ++
    (if containsYear P then [yearFlag] else []) ++
    (if looksLikeEmailOrUsername P then [emailFlag] else []).
Proof.
  unfold App.patternFlags.
  destruct (commonPasswordCheck P), (isSequential P), (isRepeatedChars P),
    (isKeyboardPattern P), (containsYear P), (looksLikeEmailOrUsername P);
    exact eq_refl.
Qed.

(** onInput consults the table of detectors from first to last. *)
Lemma patternFlags_raised (P : jsstring) : patternFlags P = raised P detectors.
Proof.
  unfold App.patternFlags, Spec.detectors, raised.
  rewrite !filter_cons, filter_nil. cbn [fst snd].
  destruct (commonPasswordCheck P), (isSequential P), (isRepeatedChars P),
    (isKeyboardPattern P), (containsYear P), (looksLikeEmailOrUsername P);
    exact eq_refl.
Qed.

Lemma detectors_NoDup : NoDup (map snd detectors).
Proof. apply (bool_decide_unpack _). by vm_compute. Qed.

Lemma later_detectors_not_danger :
  Forall (fun g => Flag.s g <> Flag.danger) (map snd (tail detectors)).
Proof.
  change (map snd (tail detectors))
    with [sequentialFlag; repeatedFlag; keyboardFlag; yearFlag; emailFlag].
  repeat (apply Forall_cons; split; [discriminate|]). apply Forall_nil_2.
Qed.

Lemma danger_in_patternFlags (P : jsstring) (i : nat) (f : Flag) :
  patternFlags P !! i = Some f -> Flag.s f = Flag.danger ->
  i = 0 /\ f = commonFlag /\ commonPasswordCheck P = true.
Proof.
  rewrite patternFlags_raised.
  exact (danger_first P commonPasswordCheck commonFlag (tail detectors) i f
           later_detectors_not_danger).
Qed.

(** C1: the base score counts the satisfied criteria among length >= 8,
    lowercase, uppercase, digit and symbol; the adjusted score is the base
    minus 2 when some flag is danger, else minus 1 when some flag is
    present, else the base, never below 0; so 0 <= adjusted <= base <= 5. *)
Theorem score_composition (P : jsstring) :
  computeScore P = satisfiedCount P /\
  adjustedScore P = Z.max 0 (computeScore P - penalty (patternFlags P)) /\
  (0 <= adjustedScore P <= computeScore P)%Z /\
  (computeScore P <= 5)%Z.
Proof.
  pose proof (computeScore_range P) as Hr.
  pose proof (penalty_range (patternFlags P)) as Hp.
  split; [apply computeScore_count|].
  unfold App.adjustedScore. rewrite adjustScore_penalty by lia.
  split_and!; lia.
Qed.

(** Closes the count of one detector's flag: predicate [p], flag [f],
    detector number [k] of the table. *)
Local Tactic Notation "detected" constr(P) constr(p) constr(f) constr(k) :=
  apply (occurrences_raised P (Spec.detectors unicodeLower) p f);
  [ apply detectors_NoDup
  | apply (list_elem_of_lookup_2 _ k); exact eq_refl ].

(** C7: all six predicates are consulted, and each one that answers true
    contributes exactly one flag, of its fixed severity: common password is
    danger; sequential, repeated and keyboard are warn; year and
    email/username are info. *)
Theorem each_true_predicate_one_flag (P : jsstring) :
  (occurrences commonFlag (patternFlags P)
     = (if commonPasswordCheck P then 1 else 0)
   /\ Flag.s commonFlag = Flag.danger) /\
  (occurrences sequentialFlag (patternFlags P)
     = (if isSequential P then 1 else 0)
   /\ Flag.s sequentialFlag = Flag.warn) /\
  (occurrences repeatedFlag (patternFlags P)
     = (if isRepeatedChars P then 1 else 0)
   /\ Flag.s repeatedFlag = Flag.warn) /\
  (occurrences keyboardFlag (patternFlags P)
     = (if isKeyboardPattern P then 1 else 0)
   /\ Flag.s keyboardFlag = Flag.warn) /\
  (occurrences yearFlag (patternFlags P)
     = (if containsYear P then 1 else 0)
   /\ Flag.s yearFlag = Flag.info) /\
  (occurrences emailFlag (patternFlags P)
     = (if looksLikeEmailOrUsername P then 1 else 0)
   /\ Flag.s emailFlag = Flag.info) /\
  length (patternFlags P)
    = length (filter (fun d => fst d P = true) detectors).
Proof.
  rewrite patternFlags_raised.
  split_and!.
  - detected P commonPasswordCheck commonFlag 0.
  - exact eq_refl.
  - detected P isSequential sequentialFlag 1.
  - exact eq_refl.
  - detected P isRepeatedChars repeatedFlag 2.
  - exact eq_refl.
  - detected P isKeyboardPattern keyboardFlag 3.
  - exact eq_refl.
  - detected P containsYear yearFlag 4.
  - exact eq_refl.
  - detected P looksLikeEmailOrUsername emailFlag 5.
  - exact eq_refl.
  - unfold raised. apply length_map.
Qed.

(** C10: the flags onInput produces stand in the fixed order common
    password, sequential, repeated, keyboard, year, email/username, each
    present only when its predicate answers true; the late breach flag is
    the only one ever put in front; so a danger flag, when there is one, is
    the first of the list. *)
Theorem danger_flag_is_first
    (P : jsstring) (h : list Byte.byte) (u u' : UI.ui) (c : Completion Z) :
  let l := snd (onInput_hashed P h u) in
  let l' := snd (onInput_settled l c u') in
  Frame.flags l
    = (if commonPasswordCheck P then [commonFlag] else []) ++
      (if isSequential P then [sequentialFlag] else []) ++
      (if isRepeatedChars P then [repeatedFlag] else []) ++
      (if isKeyboardPattern P then [keyboardFlag] else []) ++
      (if containsYear P then [yearFlag] else []) ++
      (if looksLikeEmailOrUsername P then [emailFlag] else []) /\
  (Frame.flags l' = Frame.flags l \/
   exists pwnCount, Frame.flags l' = breachFlag pwnCount :: Frame.flags l) /\
  (forall i f, Frame.flags l !! i = Some f -> Flag.s f = Flag.danger -> i = 0) /\
  (forall i f, Frame.flags l' !! i = Some f -> Flag.s f = Flag.danger -> i = 0).
Proof.
  intros l l'. subst l' l. rewrite onInput_settled_locals.
  unfold App.onInput_hashed. cbn [snd fst Frame.flags].
  assert (Hfirst : forall i f,
             patternFlags P !! i = Some f -> Flag.s f = Flag.danger -> i = 0).
  { intros i f Hi Hs. by destruct (danger_in_patternFlags P i f Hi Hs). }
  split; [apply patternFlags_explicit|].
  split; [|split; [exact Hfirst|]].
  - destruct c as [n|]; [case_decide|]; cbn [Frame.flags]; eauto.
  - destruct c as [n|]; [case_decide as Hc|]; cbn [Frame.flags];
      [|exact Hfirst..].
    intros [|i] f Hi Hs; [done|]. cbn [lookup list_lookup] in Hi. exfalso.
    destruct Hc as [_ Hc]. apply Hc.
    destruct (danger_in_patternFlags P i f Hi Hs) as (-> & -> & _).
    apply Exists_exists. exists commonFlag. split; [|done].
    by eapply list_elem_of_lookup_2.
Qed.

(** C9: the pattern list of isKeyboardPattern holds "passw", "qaz" and
    "wasd"; so a password that contains "passw" in any letter case is
    flagged as a keyboard pattern, a warn flag, although (as "MyPassword!9"
    shows) it need contain no key-row sequence of the list. *)
Theorem passw_is_keyboard_pattern (P : jsstring) :
  containsIgnoringCase P (str "passw") ->
  (str "passw" ∈ patterns /\ str "qaz" ∈ patterns /\ str "wasd" ∈ patterns) /\
  isKeyboardPattern P = true /\
  keyboardFlag ∈ patternFlags P /\
  Flag.s keyboardFlag = Flag.warn /\
  existsb (fun p => includes (toLowerCase (str "MyPassword!9")) p) keyRowPatterns
    = false.
Proof.
  intros HP.
  assert (Hin : str "passw" ∈ patterns /\ str "qaz" ∈ patterns
                /\ str "wasd" ∈ patterns).
  { split_and!; apply (bool_decide_unpack _); by vm_compute. }
  assert (Hk : isKeyboardPattern P = true).
  { unfold App.isKeyboardPattern. apply existsb_exists.
    exists (str "passw"). split; [apply list_elem_of_In, Hin|].
    apply toLowerCase_contains; [|exact HP].
    apply (bool_decide_unpack _). by vm_compute. }
  split; [exact Hin|]. split; [exact Hk|].
  split; [|split; [exact eq_refl|by vm_compute]].
  rewrite patternFlags_raised.
  apply (raised_intro P detectors isKeyboardPattern keyboardFlag); [|exact Hk].
  apply (list_elem_of_lookup_2 _ 3). exact eq_refl.
Qed.

End Facts.

(** C9 at work on "MyPassword!9". *)
Lemma passw_is_keyboard_pattern_witness :
  isKeyboardPattern asciiOnly (str "MyPassword!9") = true /\
  keyboardFlag ∈ patternFlags asciiOnly (str "MyPassword!9").
Proof.
  destruct (passw_is_keyboard_pattern asciiOnly (str "MyPassword!9"))
    as (_ & Hk & Hf & _); [|split; [exact Hk|exact Hf]].
  exists (str "My"), (str "Passw"), (str "ord!9"). split; reflexivity.
Defined.

(** C10 at work on "qwerty123": its danger flag stands first. *)
Lemma danger_flag_is_first_witness :
  let l := snd (onInput_hashed asciiOnly asciiOnly (str "qwerty123")
                  digest_abcabc blankUI) in
  Frame.flags l !! 0 = Some commonFlag /\
  forall i f, Frame.flags l !! i = Some f -> Flag.s f = Flag.danger -> i = 0.
Proof.
  intros l. split; [by vm_compute|].
  by destruct (danger_flag_is_first asciiOnly asciiOnly (str "qwerty123")
                 digest_abcabc blankUI blankUI Thrown) as (_ & _ & Hfirst & _).
Defined.

(** ** The qwerty123 scenario *)

(** C6, as the code has it: for "qwerty123" the flags include Keyboard
    pattern and Common password (the set holds "qwerty123"); three criteria
    are met (length >= 8, lowercase, digit; no uppercase, no symbol), so the
    base score is 3, the danger penalty of 2 leaves 1, and the label is
    "Very Weak". *)
Theorem qwerty123_scenario (unicodeLower : CaseMap) :
  (keyboardFlag ∈ patternFlags unicodeLower (str "qwerty123") /\
   commonFlag ∈ patternFlags unicodeLower (str "qwerty123") /\
   str "qwerty123" ∈ commonPasswords) /\
  (satisfies (str "qwerty123") LongEnough /\
   satisfies (str "qwerty123") HasLower /\
   satisfies (str "qwerty123") HasDigit /\
   ~ satisfies (str "qwerty123") HasUpper /\
   ~ satisfies (str "qwerty123") HasSymbol) /\
  computeScore (str "qwerty123") = 3%Z /\
  penalty (patternFlags unicodeLower (str "qwerty123")) = 2%Z /\
  adjustedScore unicodeLower (str "qwerty123") = 1%Z /\
  strengthLabel (adjustedScore unicodeLower (str "qwerty123")) = "Very Weak"%string.
Proof.
  split_and!; try (apply (bool_decide_unpack _)); by vm_compute.
Qed.

(** C6 as the specification words it fails: the base score of "qwerty123"
    is not 4, the adjusted score is not 2 and the label is not "Medium". *)
Lemma qwerty123_is_not_medium :
  ~ (keyboardFlag ∈ patternFlags asciiOnly (str "qwerty123") /\
     commonFlag ∈ patternFlags asciiOnly (str "qwerty123") /\
     computeScore (str "qwerty123") = 4%Z /\
     adjustedScore asciiOnly (str "qwerty123") = 2%Z /\
     strengthLabel (adjustedScore asciiOnly (str "qwerty123")) = "Medium"%string).
Proof.
  intros (_ & _ & Hbase & _). vm_compute in Hbase. discriminate.
Qed.

(** ** The breach lookup *)

(** Against an upper-case hexadecimal digit, upper-casing a code unit gives
    it exactly when the two agree up to letter case. *)
Lemma asciiUpper_hex (x y : N) :
  isUpperHex y = true -> asciiUpper x = y <-> asciiLower x = asciiLower y.
Proof.
  unfold isUpperHex, asciiUpper, asciiLower, isLower, isUpper, isDigit.
  intros Hy.
  repeat match goal with
         | |- context [(?a <=? ?b)%N] => destruct (N.leb_spec a b)
         | H : context [(?a <=? ?b)%N] |- _ => destruct (N.leb_spec a b)
         end; cbn in *; try discriminate; lia.
Qed.

Lemma map_asciiUpper_hex (f suffix : jsstring) :
  Forall (fun c => isUpperHex c = true) suffix ->
  map asciiUpper f = suffix <-> sameIgnoringCase f suffix.
Proof.
  unfold sameIgnoringCase. intros Hs. revert f.
  induction Hs as [|y suffix Hy Hs IH]; intros [|x f]; cbn [map]; try done.
  split.
  - intros [= Hx Hf]. f_equal; [by apply asciiUpper_hex|by apply IH].
  - intros [= Hx Hf]. f_equal; [by apply asciiUpper_hex|by apply IH].
Qed.

Lemma parseCount_NaN (count : option jsstring) :
  parseInt10 (default (str "undefined") count) = None -> parseCount count = 0%Z.
Proof. unfold parseCount. by intros ->. Qed.

(** *** What parseInt reads *)

Lemma decimalValue_numeral (ds : jsstring) : decimalValue ds = numeralValue ds.
Proof.
  unfold decimalValue.
  assert (H : forall acc,
             fold_left (fun acc d => (10 * acc + (Z.of_N d - 48))%Z) ds acc
             = (acc * 10 ^ Z.of_nat (length ds) + numeralValue ds)%Z).
  { induction ds as [|d ds IH]; intros acc; cbn [fold_left numeralValue length].
    - cbn. lia.
    - rewrite IH, Nat2Z.inj_succ, Z.pow_succ_r by lia. ring. }
  rewrite H. lia.
Qed.

(** The sign test of parseInt, with the comparisons written out. *)
Lemma parseInt10_sign (s : jsstring) :
  parseInt10 s
  = let s := dropWhile isWhiteSpace s in
    let '(sign, t) :=
      match s with
      | c :: rest =>
          if (c =? 45)%N then ((-1)%Z, rest)
          else if (c =? 43)%N then (1%Z, rest)
          else (1%Z, s)
      | [] => (1%Z, [])
      end in
    match takeWhile isDigit t with
    | [] => None
    | ds => Some (sign * decimalValue ds)%Z
    end.
Proof.
  unfold parseInt10. cbv zeta.
  destruct (dropWhile isWhiteSpace s) as [|c rest]; [reflexivity|].
  destruct c as [|p]; [reflexivity|].
  do 7 (destruct p as [p|p|]; try reflexivity).
Qed.

Lemma takeWhile_dropWhile (f : N -> bool) (s : jsstring) :
  takeWhile f s ++ dropWhile f s = s.
Proof.
  induction s as [|c s IH]; [done|]. cbn [takeWhile dropWhile].
  destruct (f c); [|done]. cbn [app]. by rewrite IH.
Qed.

Lemma takeWhile_Forall (f : N -> bool) (s : jsstring) :
  Forall (fun c => f c = true) (takeWhile f s).
Proof.
  induction s as [|c s IH]; cbn [takeWhile]; [done|].
  destruct (f c) eqn:Hc; [by constructor|done].
Qed.

Lemma dropWhile_head (f : N -> bool) (s : jsstring) (c : N) :
  head (dropWhile f s) = Some c -> f c = false.
Proof.
  induction s as [|x s IH]; cbn [dropWhile]; [done|].
  destruct (f x) eqn:Hx; [done|]. cbn [head]. by intros [= <-].
Qed.

Lemma takeWhile_app_stop (f : N -> bool) (ds rest : jsstring) :
  Forall (fun c => f c = true) ds ->
  (forall c, head rest = Some c -> f c = false) ->
  takeWhile f (ds ++ rest) = ds.
Proof.
  intros Hds Hrest. induction Hds as [|d ds Hd _ IH]; cbn [app takeWhile].
  - destruct rest as [|c rest]; [done|]. cbn [takeWhile]. by rewrite (Hrest c).
  - by rewrite Hd, IH.
Qed.

Lemma dropWhile_all (f : N -> bool) (ws s : jsstring) :
  Forall (fun c => f c = true) ws -> dropWhile f (ws ++ s) = dropWhile f s.
Proof.
  induction 1 as [|c ws Hc _ IH]; [done|]. cbn [app dropWhile]. by rewrite Hc.
Qed.

Lemma digit_not_space (c : N) : isDigit c = true -> isWhiteSpace c = false.
Proof.
  unfold isDigit, isWhiteSpace, isLineTerminator.
  intros [H1%N.leb_le H2%N.leb_le]%andb_true_iff.
  repeat match goal with
         | |- context [(?a =? ?b)%N] => destruct (N.eqb_spec a b); [lia|]
         | |- context [(?a <=? ?b)%N] => destruct (N.leb_spec a b); [lia|]
         end.
  reflexivity.
Qed.

(** What parseInt reads, told without its loops. *)
Lemma parseInt10_reads (field : jsstring) (n : Z) :
  countReads field n -> parseInt10 field = Some n.
Proof.
  intros (ws & sign & ds & rest & -> & Hws & Hsign & Hne & Hds & Hrest & ->).
  rewrite parseInt10_sign. cbv zeta.
  rewrite (dropWhile_all _ ws) by done.
  destruct ds as [|d ds]; [done|].
  apply Forall_cons in Hds as Hd. destruct Hd as [Hd _].
  assert (Hnum : takeWhile isDigit ((d :: ds) ++ rest) = d :: ds)
    by by apply takeWhile_app_stop.
  assert (Hd' : (48 <= d <= 57)%N).
  { unfold isDigit in Hd. apply andb_true_iff in Hd as [?%N.leb_le ?%N.leb_le]. lia. }
  destruct Hsign as [->|[->| ->]]; cbn [app dropWhile].
  - rewrite (digit_not_space d Hd).
    destruct (N.eqb_spec d 45) as [e|_]; [exfalso; clear - Hd' e; lia|].
    destruct (N.eqb_spec d 43) as [e|_]; [exfalso; clear - Hd' e; lia|].
    change (d :: ds ++ rest) with ((d :: ds) ++ rest). rewrite Hnum.
    rewrite decimalValue_numeral, decide_False by done. f_equal; lia.
  - change (isWhiteSpace 43) with false. cbn [N.eqb Pos.eqb].
    change (d :: ds ++ rest) with ((d :: ds) ++ rest). rewrite Hnum.
    rewrite decimalValue_numeral, decide_False by done. f_equal; lia.
  - change (isWhiteSpace 45) with false. cbn [N.eqb Pos.eqb].
    change (d :: ds ++ rest) with ((d :: ds) ++ rest). rewrite Hnum.
    rewrite decimalValue_numeral, decide_True by done. f_equal; lia.
Qed.

Lemma parseInt10_some (field : jsstring) (v : Z) :
  parseInt10 field = Some v -> countReads field v.
Proof.
  rewrite parseInt10_sign. cbv zeta.
  pose proof (takeWhile_dropWhile isWhiteSpace field) as Hsplit.
  pose proof (takeWhile_Forall isWhiteSpace field) as Hws.
  destruct (dropWhile isWhiteSpace field) as [|c s] eqn:Hdrop; [done|].
  set (t := if (c =? 45)%N then s else if (c =? 43)%N then s else c :: s).
  set (sign := if (c =? 45)%N then [45%N] else if (c =? 43)%N then [43%N] else []).
  assert (Hcs : c :: s = sign ++ t).
  { subst sign t. destruct (N.eqb_spec c 45) as [->|]; [done|].
    by destruct (N.eqb_spec c 43) as [->|]. }
  assert (Hval : match takeWhile isDigit t with
                 | [] => None
                 | ds => Some ((if (c =? 45)%N then -1 else 1) * decimalValue ds)%Z
                 end = Some v ->
                 countReads field v).
  { pose proof (takeWhile_dropWhile isDigit t) as Ht.
    pose proof (takeWhile_Forall isDigit t) as Hds.
    destruct (takeWhile isDigit t) as [|d ds] eqn:Htake; [done|].
    intros [= <-].
    exists (takeWhile isWhiteSpace field), sign, (d :: ds), (dropWhile isDigit t).
    split_and!.
    - by rewrite Ht, <- Hcs.
    - done.
    - subst sign. destruct (c =? 45)%N; [tauto|]. destruct (c =? 43)%N; tauto.
    - done.
    - done.
    - intros x. apply dropWhile_head.
    - rewrite decimalValue_numeral. subst sign.
      destruct (N.eqb_spec c 45) as [->|]; [rewrite decide_True by done; lia|].
      destruct (N.eqb_spec c 43) as [->|]; rewrite decide_False by done; lia. }
  subst t. destruct (c =? 45)%N; [exact Hval|].
  destruct (c =? 43)%N; exact Hval.
Qed.

(** [parseInt(count, 10) || 0] on what the count field reads as. *)
Lemma parseCount_reads (field : jsstring) (n : Z) :
  countReads field n -> parseCount (Some field) = n.
Proof.
  intros H. unfold parseCount.
  change (default (str "undefined") (Some field)) with field.
  rewrite (parseInt10_reads field n H).
  by destruct (Z.eqb_spec n 0).
Qed.

Lemma parseCount_unparsable (count : option jsstring) :
  unparsable count -> parseCount count = 0%Z.
Proof.
  intros H. apply parseCount_NaN. destruct count as [field|].
  - change (default (str "undefined") (Some field)) with field.
    destruct (parseInt10 field) as [v|] eqn:Hv; [|done].
    exfalso. apply H. exists v. by apply parseInt10_some.
  - by vm_compute.
Qed.

Section Lookup.

Variable unicodeUpper : CaseMap.

Local Abbreviation toUpperCase := (toUpperCase unicodeUpper).
Local Abbreviation scanLines := (scanLines unicodeUpper).
Local Abbreviation matchesSuffix := (matchesSuffix unicodeUpper).
Local Abbreviation checkPwned := (checkPwned unicodeUpper).

(** One turn of the loop of checkPwned. *)
Lemma scanLines_cons (suffix line : jsstring) (more : list jsstring) :
  scanLines suffix (line :: more)
  = if decide (matchesSuffix suffix line)
    then parseCount (recordCount line)
    else scanLines suffix more.
Proof.
  cbn [App.scanLines].
  destruct (decide (matchesSuffix suffix line)) as [[Hne Hm]|Hn];
    unfold Spec.matchesSuffix, recordSuffix, recordCount in *;
    destruct (split 58 (trim line) !! 0) as [[|c hs]|];
    cbn [default] in *; try done.
  - by rewrite bool_decide_eq_true_2.
  - rewrite bool_decide_eq_false_2; [done|]. intros Hm. by apply Hn.
Qed.

Lemma scanLines_no_match (suffix : jsstring) (lines : list jsstring) :
  Forall (fun line => ~ matchesSuffix suffix line) lines ->
  scanLines suffix lines = 0%Z.
Proof.
  induction 1 as [|line lines Hl _ IH]; [done|].
  by rewrite scanLines_cons, decide_False.
Qed.

Lemma scanLines_first_match (suffix line : jsstring) (before after : list jsstring) :
  Forall (fun line => ~ matchesSuffix suffix line) before ->
  matchesSuffix suffix line ->
  scanLines suffix (before ++ line :: after) = parseCount (recordCount line).
Proof.
  intros Hb Hl. induction Hb as [|l before Hn _ IH]; cbn [app].
  - by rewrite scanLines_cons, decide_True.
  - by rewrite scanLines_cons, decide_False.
Qed.

Lemma blank_no_match (suffix line : jsstring) :
  isBlank line -> ~ matchesSuffix suffix line.
Proof.
  unfold isBlank, Spec.matchesSuffix, recordSuffix. intros ->. cbn. tauto.
Qed.

Lemma scanLines_skips_blank (suffix : jsstring) (lines : list jsstring) :
  scanLines suffix lines
  = scanLines suffix (filter (fun line => ~ isBlank line) lines).
Proof.
  induction lines as [|line lines IH]; [done|].
  rewrite filter_cons. case_decide as Hb.
  - by rewrite !scanLines_cons, IH.
  - assert (Hblank : isBlank line).
    { unfold isBlank in *. destruct (decide (trim line = [])); tauto. }
    rewrite scanLines_cons, decide_False; [done|by apply blank_no_match].
Qed.

Lemma matchesSuffix_ignoring_case (sha1 line : jsstring) :
  isDigest sha1 ->
  Forall (fun c => (c < 128)%N) (recordSuffix line) ->
  matchesSuffix (sliceFrom sha1 5) line
  <-> sameIgnoringCase (recordSuffix line) (sliceFrom sha1 5).
Proof.
  intros [Hlen Hhex] Hf. unfold Spec.matchesSuffix, JS.toUpperCase.
  rewrite convertFrom_ascii by done.
  assert (Hs : Forall (fun c => isUpperHex c = true) (sliceFrom sha1 5)).
  { unfold sliceFrom. by apply Forall_drop. }
  rewrite (map_asciiUpper_hex _ _ Hs). split; [tauto|].
  intros Hsame. split; [|done]. intros Hnil.
  apply (f_equal length) in Hsame. rewrite !length_map, Hnil in Hsame.
  unfold sliceFrom in Hsame. rewrite length_drop, Hlen in Hsame. done.
Qed.

(** C3: for a digest and any response body, checkPwned goes through the
    lines, compares the 35-character suffix without regard to letter case,
    and returns the count of the first record that matches: the number its
    COUNT field reads as (for numbers a Number holds exactly, below 2^53),
    0 when that field is missing or reads as no number, 0 when no record
    matches, blank lines skipped.  A non-success status or a network
    failure makes it throw, which onInput shows as "unavailable", never as
    "not found". *)
Theorem breach_lookup (sha1 : jsstring) (res : FetchResult) :
  isDigest sha1 ->
  let suffix := sliceFrom sha1 5 in
  match res with
  | NetworkError => checkPwned sha1 res = Thrown
  | Response status text =>
      if ok status then
        let lines := split 10 text in
        exists count,
          checkPwned sha1 res = Returned count /\
          (Forall (fun line => ~ matchesSuffix suffix line) lines ->
             count = 0%Z) /\
          (forall before line after,
             lines = before ++ line :: after ->
             Forall (fun line => ~ matchesSuffix suffix line) before ->
             matchesSuffix suffix line ->
             (forall field n,
                recordCount line = Some field -> countReads field n ->
                (Z.abs n < 2 ^ 53)%Z -> count = n) /\
             (unparsable (recordCount line) -> count = 0%Z)) /\
          count = scanLines suffix (filter (fun line => ~ isBlank line) lines)
      else checkPwned sha1 res = Thrown
  end /\
  length suffix = 35 /\
  (forall line,
     Forall (fun c => (c < 128)%N) (recordSuffix line) ->
     matchesSuffix suffix line <-> sameIgnoringCase (recordSuffix line) suffix) /\
  (forall l u,
     UI.pwnedEl (fst (onInput_settled l Thrown u)) = UI.Unavailable /\
     UI.pwnedEl (fst (onInput_settled l (Returned 0%Z) u)) = UI.NotFound) /\
  UI.Unavailable <> UI.NotFound.
Proof.
  intros Hd suffix. split_and!.
  - destruct res as [|status text]; [done|].
    unfold App.checkPwned. destruct (ok status); cbn [negb]; [|done].
    fold suffix. exists (scanLines suffix (split 10 text)).
    split_and!; [done|apply scanLines_no_match| |apply scanLines_skips_blank].
    intros before line after -> Hb Hl.
    rewrite (scanLines_first_match suffix line before after Hb Hl). split.
    + intros field n -> Hreads _. by apply parseCount_reads.
    + apply parseCount_unparsable.
  - subst suffix. unfold sliceFrom. rewrite length_drop. by destruct Hd as [-> _].
  - intros line. by apply matchesSuffix_ignoring_case.
  - done.
  - done.
Qed.

End Lookup.

(** C3 at work: the digest of "abcabc" against a range that lists its
    suffix in lower case with the count 37, against a 503, and against a
    failed request. *)
Lemma breach_lookup_witness :
  checkPwned asciiOnly sampleDigest (Response 200 sampleRange) = Returned 37%Z /\
  checkPwned asciiOnly sampleDigest (Response 503 sampleRange) = Thrown /\
  checkPwned asciiOnly sampleDigest NetworkError = Thrown.
Proof.
  assert (Hd : isDigest sampleDigest) by (apply (bool_decide_unpack _); by vm_compute).
  split_and!.
  - destruct (breach_lookup asciiOnly sampleDigest (Response 200 sampleRange) Hd)
      as [Hok _].
    change (ok 200) with true in Hok. cbv beta iota zeta in Hok.
    destruct Hok as (count & -> & _ & Hfirst & _). f_equal.
    destruct (Hfirst (take 1 (split 10 sampleRange))
                (str "87006fbf7e5cc4b026c3138bc046883dc71:37" ++ [13%N])
                (drop 2 (split 10 sampleRange))) as [Hreads _].
    + by vm_compute.
    + apply (bool_decide_unpack _). by vm_compute.
    + apply (bool_decide_unpack _). by vm_compute.
    + apply (Hreads (str "37") 37%Z); [by vm_compute| |by vm_compute].
      exists [], [], (str "37"), []. split_and!; try done.
      * by left.
      * by repeat constructor.
  - by destruct (breach_lookup asciiOnly sampleDigest (Response 503 sampleRange) Hd)
      as [Hfail _].
  - by destruct (breach_lookup asciiOnly sampleDigest NetworkError Hd) as [Hfail _].
Defined.

(** ** Breach checks that settle late *)

Section Loop.

Variable unicodeLower unicodeUpper : CaseMap.

Local Abbreviation step := (step unicodeLower unicodeUpper).
Local Abbreviation run := (run unicodeLower unicodeUpper).
Local Abbreviation checkPwned := (checkPwned unicodeUpper).
Local Abbreviation sha1hex := (sha1hex unicodeUpper).
Local Abbreviation patternFlags := (patternFlags unicodeLower).
Local Abbreviation adjustedScore := (adjustedScore unicodeLower).
Local Abbreviation onInput_hashed := (onInput_hashed unicodeLower unicodeUpper).

(** What the page shows once the breach check of a suspended call has
    settled: the call resumes with no look at what the page shows by then,
    and writes the outcome of its own check. *)
Lemma settle_writes_outcome
    (pg : Page) (call : nat) (l : Frame.locals) (res : FetchResult) :
  suspended pg !! call = Some (Frame.AwaitPwned l) ->
  exists pg',
    step pg (FetchSettled call res) = Some pg' /\
    UI.sha1El (ui pg') = UI.sha1El (ui pg) /\
    UI.entropyEl (ui pg') = UI.entropyEl (ui pg) /\
    match checkPwned (Frame.sha1 l) res with
    | Thrown =>
        UI.pwnedEl (ui pg') = UI.Unavailable /\
        strengthAndFlags (ui pg') = strengthAndFlags (ui pg)
    | Returned pwnCount =>
        if decide (0 < pwnCount)%Z then
          UI.pwnedEl (ui pg') = UI.Found pwnCount /\
          if decide (hasCommonFlag (Frame.flags l)) then
            strengthAndFlags (ui pg') = strengthAndFlags (ui pg)
          else
            UI.flagsEl (ui pg') = breachFlag pwnCount :: Frame.flags l /\
            UI.fillWidth (ui pg') = (20 * Z.max 0 (Frame.adjustedScore l - 2))%Z /\
            UI.strengthText (ui pg')
              = ("Strength: "
                   ++ strengthLabel (Z.max 0 (Frame.adjustedScore l - 2)))%string /\
            UI.suggestionsEl (ui pg') = tipsFor (Frame.value l)
        else
          UI.pwnedEl (ui pg') = UI.NotFound /\
          strengthAndFlags (ui pg') = strengthAndFlags (ui pg)
    end.
Proof.
  intros Hcall. unfold App.step. rewrite Hcall.
  destruct (checkPwned (Frame.sha1 l) res) as [pwnCount|].
  - destruct (decide (0 < pwnCount)%Z) as [Hpos|Hneg].
    + rewrite onInput_settled_found by done.
      destruct (decide (hasCommonFlag (Frame.flags l)));
        eexists; (split; [reflexivity|]); cbn; done.
    + rewrite onInput_settled_not_found by lia.
      eexists; (split; [reflexivity|]); cbn; done.
  - eexists; (split; [reflexivity|]); cbn; done.
Qed.

(** An event that does not resume a suspended call leaves it suspended as
    it is: a new input starts a call of its own and cancels none. *)
Lemma step_keeps_frame (pg pg' : Page) (e : Event) (call : nat) (fr : Frame.frame) :
  suspended pg !! call = Some fr -> call < calls pg -> ~ resumes e call ->
  step pg e = Some pg' ->
  suspended pg' !! call = Some fr /\ call < calls pg'.
Proof.
  intros Hfr Hlt Hne. destruct e as [value|c h|c res]; cbn [App.step resumes] in *.
  - destruct (onInput_start value (ui pg)) as [u [fr'|]] eqn:Hs; intros [= <-];
      cbn [suspended calls]; (split; [|lia]); [|done].
    rewrite lookup_insert_ne; [done|lia].
  - destruct (suspended pg !! c) as [[value|l]|] eqn:Hc; try done.
    destruct (onInput_hashed value h (ui pg)) as [u l] eqn:Hh. intros [= <-].
    cbn [suspended calls]. split; [|done]. by rewrite lookup_insert_ne.
  - destruct (suspended pg !! c) as [[value|l]|] eqn:Hc; try done.
    destruct (onInput_settled l _ (ui pg)) as [u l'] eqn:Hh. intros [= <-].
    cbn [suspended calls]. split; [|done]. by rewrite lookup_delete_ne.
Qed.

Lemma run_keeps_frame (events : list Event) (pg pg' : Page) (call : nat)
    (fr : Frame.frame) :
  suspended pg !! call = Some fr -> call < calls pg ->
  Forall (fun e => ~ resumes e call) events ->
  run pg events = Some pg' ->
  suspended pg' !! call = Some fr /\ call < calls pg'.
Proof.
  intros Hfr Hlt Hev. revert pg Hfr Hlt.
  induction Hev as [|e events He _ IH]; intros pg Hfr Hlt; cbn [App.run].
  - by intros [= <-].
  - destruct (step pg e) as [pg1|] eqn:Hstep; [|done].
    destruct (step_keeps_frame pg pg1 e call fr Hfr Hlt He Hstep) as [Hfr1 Hlt1].
    by apply IH.
Qed.

Lemma run_app (events more : list Event) (pg pg' : Page) :
  run pg (events ++ more) = Some pg' ->
  exists mid, run pg events = Some mid /\ run mid more = Some pg'.
Proof.
  revert pg. induction events as [|e events IH]; intros pg; cbn [app App.run].
  - intros H. by exists pg.
  - destruct (step pg e) as [pg1|]; [apply IH|done].
Qed.

(** C5, as the code has it: let P1 be typed, and P2 at any time before the
    breach check of P1 settles (before or after the digest of P1 is there),
    with any other events in between that belong to other calls.  The call
    for P1 stays suspended through all of them, and when its breach check
    settles its outcome is not discarded but applied to the page like any
    other: the breach status shown becomes that of P1 and, when its count
    is positive and P1 has no common-password flag, so do the flags and the
    strength shown (with the breach flag and the further penalty of 2);
    only the digest and the entropy shown are left alone. *)
Theorem stale_check_is_applied
    (pg pg2 : Page) (P1 P2 : jsstring) (h1 : list Byte.byte)
    (early late : list Event) (res : FetchResult) :
  let call := calls pg in
  P1 <> [] ->
  Input P2 ∈ early ++ late ->
  Forall (fun e => ~ resumes e call) (early ++ late) ->
  run pg (Input P1 :: early ++ DigestResolved call h1 :: late) = Some pg2 ->
  exists pg3,
    step pg2 (FetchSettled call res) = Some pg3 /\
    UI.sha1El (ui pg3) = UI.sha1El (ui pg2) /\
    UI.entropyEl (ui pg3) = UI.entropyEl (ui pg2) /\
    match checkPwned (sha1hex h1) res with
    | Thrown =>
        UI.pwnedEl (ui pg3) = UI.Unavailable /\
        strengthAndFlags (ui pg3) = strengthAndFlags (ui pg2)
    | Returned pwnCount =>
        if decide (0 < pwnCount)%Z then
          UI.pwnedEl (ui pg3) = UI.Found pwnCount /\
          if decide (hasCommonFlag (patternFlags P1)) then
            strengthAndFlags (ui pg3) = strengthAndFlags (ui pg2)
          else
            UI.flagsEl (ui pg3) = breachFlag pwnCount :: patternFlags P1 /\
            UI.fillWidth (ui pg3) = (20 * Z.max 0 (adjustedScore P1 - 2))%Z /\
            UI.strengthText (ui pg3)
              = ("Strength: "
                   ++ strengthLabel (Z.max 0 (adjustedScore P1 - 2)))%string /\
            UI.suggestionsEl (ui pg3) = tipsFor P1
        else
          UI.pwnedEl (ui pg3) = UI.NotFound /\
          strengthAndFlags (ui pg3) = strengthAndFlags (ui pg2)
    end.
Proof.
  intros call HP1 _ Hno Hrun. apply Forall_app in Hno as [Hearly Hlate].
  cbn [App.run] in Hrun.
  destruct (step pg (Input P1)) as [pg0|] eqn:Hstart; [|done].
  assert (H0 : suspended pg0 !! call = Some (Frame.AwaitSha1 P1) /\ call < calls pg0).
  { destruct P1 as [|c P1]; [done|]. cbn [App.step App.onInput_start] in Hstart.
    injection Hstart as <-. cbn [suspended calls]. split; [|subst call; lia].
    apply lookup_insert_eq. }
  destruct H0 as [Hfr0 Hlt0].
  apply run_app in Hrun as (pgA & HrunA & Hrun). cbn [App.run] in Hrun.
  destruct (run_keeps_frame early pg0 pgA call _ Hfr0 Hlt0 Hearly HrunA)
    as [HfrA HltA].
  destruct (step pgA (DigestResolved call h1)) as [pgB|] eqn:Hdigest; [|done].
  cbn [App.step] in Hdigest. rewrite HfrA in Hdigest.
  set (l := snd (onInput_hashed P1 h1 (ui pgA))).
  assert (HB : suspended pgB !! call = Some (Frame.AwaitPwned l) /\ call < calls pgB).
  { cbn [App.onInput_hashed] in Hdigest. injection Hdigest as <-.
    cbn [suspended calls]. split; [|done]. apply lookup_insert_eq. }
  destruct HB as [HfrB HltB].
  destruct (run_keeps_frame late pgB pg2 call _ HfrB HltB Hlate Hrun) as [Hfr2 _].
  exact (settle_writes_outcome pg2 call l res Hfr2).
Qed.

End Loop.

(** The flags of "abcabc" and the answer of the range of its digest. *)
Lemma abcabc_flags : patternFlags asciiOnly (str "abcabc") = [repeatedFlag].
Proof. vm_compute. reflexivity. Qed.

Lemma abcabc_check :
  checkPwned asciiOnly (sha1hex asciiOnly digest_abcabc) (Response 200 sampleRange)
  = Returned 37%Z.
Proof. vm_compute. reflexivity. Qed.

(** C5 (as the code has it) at work on [staleTrace]: "abcabc" is typed,
    then "Tr0ub4dor&3xyz9Q", whose own check settles first; the check of
    "abcabc" settles last. *)
Lemma stale_check_is_applied_witness :
  exists pg',
    step asciiOnly asciiOnly pageBeforeStale
      (FetchSettled 0 (Response 200 sampleRange)) = Some pg' /\
    UI.pwnedEl (ui pg') = UI.Found 37 /\
    UI.flagsEl (ui pg') = [breachFlag 37; repeatedFlag].
Proof.
  destruct (stale_check_is_applied asciiOnly asciiOnly initialPage pageBeforeStale
              (str "abcabc") (str "Tr0ub4dor&3xyz9Q") digest_abcabc []
              [Input (str "Tr0ub4dor&3xyz9Q"); DigestResolved 1 digest_strong;
               FetchSettled 1 (Response 200 otherRange)]
              (Response 200 sampleRange))
    as (pg' & Hstep & _ & _ & Hres).
  - done.
  - apply elem_of_cons. by left.
  - cbn [app]. constructor; [cbn [resumes]; tauto|].
    constructor; [cbn [resumes]; discriminate|].
    constructor; [cbn [resumes]; discriminate|]. constructor.
  - vm_compute. reflexivity.
  - exists pg'. split; [exact Hstep|].
    rewrite abcabc_check, abcabc_flags in Hres.
    rewrite decide_True in Hres by lia. destruct Hres as [Hp Hres].
    split; [exact Hp|].
    rewrite decide_False in Hres.
    + destruct Hres as (Hf & _). exact Hf.
    + unfold hasCommonFlag. rewrite Exists_cons, Exists_nil. cbn. intros [[=]|[]].
Defined.

(** C5 as the specification words it fails: in [staleTrace] the page shows
    the result of the second input (score 5, no flag, not found) until the
    breach check of the first input settles, and then shows the first
    input's (score 0, breach flag, found 37 times). *)
Lemma stale_resolution_overwrites :
  (publishedResult <$>
     (ui <$> run asciiOnly asciiOnly initialPage (take 5 staleTrace)))
    = Some (100%Z, "Strength: Very Strong"%string, [], UI.NotFound) /\
  (publishedResult <$>
     (ui <$> run asciiOnly asciiOnly initialPage staleTrace))
    = Some (0%Z, "Strength: Very Weak"%string,
            [breachFlag 37; repeatedFlag], UI.Found 37) /\
  (publishedResult <$>
     (ui <$> run asciiOnly asciiOnly initialPage staleTrace))
    <> (publishedResult <$>
          (ui <$> run asciiOnly asciiOnly initialPage (take 5 staleTrace))).
Proof.
  assert (H5 : (publishedResult <$>
                  (ui <$> run asciiOnly asciiOnly initialPage (take 5 staleTrace)))
               = Some (100%Z, "Strength: Very Strong"%string, [], UI.NotFound))
    by (by vm_compute).
  assert (H6 : (publishedResult <$>
                  (ui <$> run asciiOnly asciiOnly initialPage staleTrace))
               = Some (0%Z, "Strength: Very Weak"%string,
                       [breachFlag 37; repeatedFlag], UI.Found 37))
    by (by vm_compute).
  split; [exact H5|]. split; [exact H6|]. rewrite H5, H6. discriminate.
Qed.

(** * Further properties of app.js *)

(** ** The digest text and the range request *)

(** The upper-case hexadecimal digit of a value below 16. *)
Lemma asciiUpper_hexDigit (d : N) :
  (d < 16)%N ->
  asciiUpper (hexDigit d) = (if (d <? 10)%N then 48 + d else 55 + d)%N /\
  (hexDigit d < 128)%N /\
  isUpperHex (asciiUpper (hexDigit d)) = true.
Proof.
  intros Hd. rewrite <- (N2Nat.id d) in *.
  assert (Hn : N.to_nat d < 16) by lia. clear Hd.
  generalize dependent (N.to_nat d). intros n Hn.
  do 16 (destruct n as [|n]; [by vm_compute|apply Nat.succ_lt_mono in Hn]).
  lia.
Qed.

(** A byte is written with two digits: toString(16) gives one or two, and
    padStart fills up with a zero. *)
Lemma byte_hex_pair (x : N) :
  (x < 256)%N ->
  padStart2 (toString16 x) = [hexDigit (x / 16); hexDigit (x mod 16)].
Proof.
  intros Hx. unfold toString16, padStart2.
  destruct (N.ltb_spec x 16) as [Hlt|Hge]; [|done].
  cbn. by rewrite N.div_small, N.mod_small.
Qed.

Lemma byte_range (b : Byte.byte) : (Byte.to_N b < 256)%N.
Proof. pose proof (Byte.to_N_bounded b). lia. Qed.

Lemma byte_hex_ascii (b : Byte.byte) :
  Forall (fun c => (c < 128)%N) (padStart2 (toString16 (Byte.to_N b))).
Proof.
  pose proof (byte_range b) as Hb. rewrite byte_hex_pair by done.
  assert (Byte.to_N b / 16 < 16)%N by (apply N.Div0.div_lt_upper_bound; lia).
  assert (Byte.to_N b mod 16 < 16)%N by (apply N.mod_lt; lia).
  repeat constructor; by apply asciiUpper_hexDigit.
Qed.

(** The digest text is ASCII, so the host's case mapping plays no part. *)
Lemma sha1hex_map (unicodeUpper : CaseMap) (h : list Byte.byte) :
  sha1hex unicodeUpper h
  = concat (map (fun b => map asciiUpper (padStart2 (toString16 (Byte.to_N b)))) h).
Proof.
  unfold sha1hex, toUpperCase. rewrite convertFrom_ascii.
  - induction h as [|b h IH]; [done|]. cbn [map concat]. by rewrite map_app, IH.
  - apply Forall_concat, Forall_map, Forall_forall. intros b _. apply byte_hex_ascii.
Qed.

Lemma upper_hex_injective (d e : N) :
  (d < 16)%N -> (e < 16)%N ->
  asciiUpper (hexDigit d) = asciiUpper (hexDigit e) -> d = e.
Proof.
  intros Hd He.
  destruct (asciiUpper_hexDigit d Hd) as (-> & _), (asciiUpper_hexDigit e He) as (-> & _).
  destruct (N.ltb_spec d 10), (N.ltb_spec e 10); lia.
Qed.

Lemma byte_hex_injective (b1 b2 : Byte.byte) :
  map asciiUpper (padStart2 (toString16 (Byte.to_N b1)))
  = map asciiUpper (padStart2 (toString16 (Byte.to_N b2))) ->
  b1 = b2.
Proof.
  pose proof (byte_range b1) as H1. pose proof (byte_range b2) as H2.
  rewrite !byte_hex_pair by done. cbn [map]. intros [= Hhi Hlo].
  assert (Byte.to_N b1 / 16 < 16)%N by (apply N.Div0.div_lt_upper_bound; lia).
  assert (Byte.to_N b2 / 16 < 16)%N by (apply N.Div0.div_lt_upper_bound; lia).
  assert (Byte.to_N b1 mod 16 < 16)%N by (apply N.mod_lt; lia).
  assert (Byte.to_N b2 mod 16 < 16)%N by (apply N.mod_lt; lia).
  apply upper_hex_injective in Hhi; [|done..].
  apply upper_hex_injective in Hlo; [|done..].
  assert (Heq : Byte.to_N b1 = Byte.to_N b2).
  { rewrite (N.div_mod (Byte.to_N b1) 16), (N.div_mod (Byte.to_N b2) 16) by lia.
    by rewrite Hhi, Hlo. }
  apply (f_equal Byte.of_N) in Heq. rewrite !Byte.of_to_N in Heq. congruence.
Qed.

(** X1: sha1hex writes two characters per byte of the hash, each an
    upper-case hexadecimal digit, so the 20 bytes of a SHA-1 hash give a
    digest of 40 such characters; the text does not depend on the case
    mapping of the host. *)
Theorem sha1hex_is_digest (unicodeUpper : CaseMap) (h : list Byte.byte) :
  length (sha1hex unicodeUpper h) = 2 * length h /\
  Forall (fun c => isUpperHex c = true) (sha1hex unicodeUpper h) /\
  (length h = 20 -> isDigest (sha1hex unicodeUpper h)) /\
  sha1hex unicodeUpper h = sha1hex asciiOnly h.
Proof.
  assert (Hlen : length (sha1hex unicodeUpper h) = 2 * length h).
  { rewrite sha1hex_map. induction h as [|b h IH]; [done|].
    cbn [map concat]. rewrite length_app, IH, length_map.
    rewrite byte_hex_pair by apply byte_range. cbn. lia. }
  assert (Hhex : Forall (fun c => isUpperHex c = true) (sha1hex unicodeUpper h)).
  { rewrite sha1hex_map. apply Forall_concat, Forall_map, Forall_forall.
    intros b _. pose proof (byte_range b) as Hb. rewrite byte_hex_pair by done.
    assert (Byte.to_N b / 16 < 16)%N by (apply N.Div0.div_lt_upper_bound; lia).
    assert (Byte.to_N b mod 16 < 16)%N by (apply N.mod_lt; lia).
    cbn [map]. repeat constructor; by apply asciiUpper_hexDigit. }
  split_and!; [done|done| |by rewrite !sha1hex_map].
  intros H20. split; [lia|done].
Qed.

(** X2: sha1hex loses nothing: two hashes have the same digest text
    exactly when they are the same bytes. *)
Theorem sha1hex_injective (unicodeUpper : CaseMap) (h1 h2 : list Byte.byte) :
  sha1hex unicodeUpper h1 = sha1hex unicodeUpper h2 <-> h1 = h2.
Proof.
  split; [|by intros ->]. rewrite !sha1hex_map. revert h2.
  induction h1 as [|b1 h1 IH]; intros [|b2 h2]; cbn [map concat].
  - done.
  - rewrite byte_hex_pair by apply byte_range. done.
  - rewrite byte_hex_pair by apply byte_range. done.
  - intros Heq.
    assert (Hsplit :
      map asciiUpper (padStart2 (toString16 (Byte.to_N b1)))
      = map asciiUpper (padStart2 (toString16 (Byte.to_N b2))) /\
      concat (map (fun b => map asciiUpper (padStart2 (toString16 (Byte.to_N b)))) h1)
      = concat (map (fun b => map asciiUpper (padStart2 (toString16 (Byte.to_N b)))) h2)).
    { revert Heq. rewrite !byte_hex_pair by apply byte_range. cbn [map app].
      intros [= -> -> ->]. done. }
    destruct Hsplit as [Hb Hrest].
    f_equal; [by apply byte_hex_injective|by apply IH].
Qed.

(** X3: checkPwned cuts the digest in two without loss, into the 5
    characters it sends and the 35 it keeps to itself; the URL it fetches
    is the same for two digests exactly when their first 5 characters
    agree, so it tells the service nothing else about the digest. *)
Theorem request_names_prefix_only (sha1 sha1' : jsstring) :
  requestPrefix sha1 ++ sliceFrom sha1 5 = sha1 /\
  (isDigest sha1 ->
   length (requestPrefix sha1) = 5 /\ length (sliceFrom sha1 5) = 35) /\
  (take 5 sha1 = take 5 sha1' <-> requestUrl sha1 = requestUrl sha1').
Proof.
  unfold requestUrl, requestPrefix, slice, sliceFrom. rewrite Nat.sub_0_r, !drop_0.
  split_and!.
  - apply take_drop.
  - intros [Hlen _]. rewrite length_take, length_drop. lia.
  - split; [by intros ->|]. by intros ?%(inj (app _)).
Qed.

(** ** What each detector looks for *)

Lemma ascendingFrom_S (c : N) (n : nat) :
  ascendingFrom c (S n) = c :: ascendingFrom (c + 1) n.
Proof.
  unfold ascendingFrom. cbn [seq map]. f_equal; [lia|].
  rewrite <- seq_shift, map_map. apply map_ext. intros i. lia.
Qed.

Lemma isConsecutive_ascending (chunk : jsstring) :
  isConsecutive chunk = true <->
  exists c, chunk = ascendingFrom c (length chunk).
Proof.
  induction chunk as [|a chunk IH]; cbn [isConsecutive length].
  - split; [intros _; exists 0%N; reflexivity|done].
  - destruct chunk as [|b chunk]; cbn [length] in *.
    + split; [intros _; exists a; cbn; f_equal; lia|done].
    + destruct (N.eqb_spec b (a + 1)) as [->|Hne]; cbn [negb].
      * rewrite IH. split.
        -- intros (c & Hc). exists a. rewrite ascendingFrom_S in Hc.
           rewrite !ascendingFrom_S. congruence.
        -- intros (c & Hc). rewrite !ascendingFrom_S in Hc.
           exists (a + 1)%N. rewrite ascendingFrom_S. congruence.
      * split; [done|]. intros (c & Hc). rewrite !ascendingFrom_S in Hc. congruence.
Qed.

(** The loop of isSequential over the windows of four code units. *)
Lemma sequential_run (lower : jsstring) :
  existsb (fun i => isConsecutive (slice lower i (i + 4)))
    (seq 0 (length lower - 3)) = true <->
  exists pre c post, lower = pre ++ ascendingFrom c 4 ++ post.
Proof.
  rewrite existsb_seq. unfold slice. split.
  - intros (i & Hi & (c & Hc)%isConsecutive_ascending).
    replace (i + 4 - i) with 4 in Hc by lia.
    rewrite length_take, length_drop in Hc.
    replace (4 `min` (length lower - i)) with 4 in Hc by lia.
    exists (take i lower), c, (drop 4 (drop i lower)).
    by rewrite <- Hc, take_drop, take_drop.
  - intros (pre & c & post & ->). exists (length pre).
    rewrite !length_app. change (length (ascendingFrom c 4)) with 4.
    split; [lia|]. apply isConsecutive_ascending. exists c.
    replace (length pre + 4 - length pre) with 4 by lia.
    rewrite drop_app_length.
    by rewrite (take_app_length' (ascendingFrom c 4)).
Qed.

(** The loops of isRepeatedChars decide alone: what the regular expression
    finds, they find. *)
Lemma repeated_doubled (P : jsstring) :
  isRepeatedChars P = true <->
  exists pre w post, 2 <= length w /\ P = pre ++ w ++ w ++ post.
Proof.
  unfold isRepeatedChars. split.
  - destruct (search repeat4Here P) eqn:Hre.
    + intros _. apply search_spec in Hre as (pre & suf & -> & Hm).
      destruct suf as [|a rest]; [done|]. cbn [repeat4Here] in Hm.
      apply andb_true_iff in Hm as [_ (post & ->)%startsWith_spec].
      by exists pre, [a; a], post.
    + intros (size & Hsize & (i & Hi & Heq)%existsb_seq)%existsb_seq.
      apply bool_decide_eq_true in Heq. unfold substr in Heq.
      assert (Hhalf : size * 2 <= length P).
      { pose proof (Nat.Div0.mul_div_le (length P) 2). lia. }
      exists (take i P), (take size (drop i P)), (drop (i + size + size) P).
      split; [rewrite length_take, length_drop; lia|].
      rewrite Heq at 2.
      rewrite <- (take_drop i P) at 1. f_equal.
      rewrite <- (take_drop size (drop i P)) at 1. f_equal.
      rewrite drop_drop.
      rewrite <- (take_drop size (drop (i + size) P)) at 1. f_equal.
      by rewrite drop_drop.
  - intros (pre & w & post & Hw & HP).
    destruct (search repeat4Here P); [done|].
    by apply (adjacent_copies_found P pre w post).
Qed.

(** A search that succeeds in a string succeeds in any string around it,
    when a match is not undone by what follows it. *)
Lemma search_embedded (m : jsstring -> bool) (pre P post : jsstring) :
  (forall s t, m s = true -> m (s ++ t) = true) ->
  search m P = true -> search m (pre ++ P ++ post) = true.
Proof.
  intros Hm (pre' & suf & -> & H)%search_spec. apply search_spec.
  exists (pre ++ pre'), (suf ++ post).
  split; [by rewrite <- !app_assoc|by apply Hm].
Qed.

Lemma startsWith_extend (p s t : jsstring) :
  startsWith s p = true -> startsWith (s ++ t) p = true.
Proof.
  intros (rest & ->)%startsWith_spec. apply startsWith_spec.
  exists (rest ++ t). by rewrite app_assoc.
Qed.

Lemma yearHere_extend (s t : jsstring) :
  yearHere s = true -> yearHere (s ++ t) = true.
Proof. by destruct s as [|a [|b [|c [|d s]]]]. Qed.

Lemma nameDigitsHere_extend (s t : jsstring) :
  nameDigitsHere s = true -> nameDigitsHere (s ++ t) = true.
Proof.
  induction s as [|a s IH]; [done|]. cbn [nameDigitsHere app].
  intros [Ha [Hn|Ht]%orb_true_iff]%andb_true_iff; rewrite Ha; cbn [andb].
  - by rewrite IH.
  - destruct s as [|c [|d s]]; try done. cbn [app twoDigitsHere] in *.
    by rewrite Ht, orb_true_r.
Qed.

Lemma toLowerCase_ascii (unicodeLower : CaseMap) (P : jsstring) :
  isAscii P -> toLowerCase unicodeLower P = map asciiLower P.
Proof. apply convertFrom_ascii. Qed.

Lemma map_infix {A B} (f : A -> B) (s : list A) (pre p post : list B) :
  map f s = pre ++ p ++ post ->
  exists pre' w post', s = pre' ++ w ++ post' /\ map f w = p.
Proof.
  intros (pre' & rest & -> & _ & (w & post' & -> & Hw & _)%map_eq_app)%map_eq_app.
  by exists pre', w, post'.
Qed.

Lemma yearHere_spec (suf : jsstring) :
  yearHere suf = true <->
  exists a b c d post,
    suf = [a; b; c; d] ++ post /\
    Forall (fun x => isDigit x = true) [a; b; c; d] /\
    (1900 <= decimalValue [a; b; c; d] <= 2029)%Z.
Proof.
  split.
  - destruct suf as [|a [|b [|c [|d post]]]]; try done. cbn [yearHere].
    intros H. exists a, b, c, d, post. split; [done|].
    unfold decimalValue, isDigit in *. cbn [fold_left].
    repeat match goal with
           | H : context [(?x <=? ?y)%N] |- _ => destruct (N.leb_spec x y)
           | H : context [(?x =? ?y)%N] |- _ => destruct (N.eqb_spec x y)
           end; cbn in H; try discriminate;
      (split; [repeat constructor; apply andb_true_iff;
                 split; apply N.leb_le; lia|lia]).
  - intros (a & b & c & d & post & -> & Hd & Hr). cbn [app yearHere].
    rewrite !Forall_cons in Hd. destruct Hd as (Ha & Hb & Hc & Hd & _).
    unfold decimalValue in Hr. cbn [fold_left] in Hr.
    rewrite Hc, Hd. unfold isDigit in *.
    apply andb_true_iff in Ha as [Ha1%N.leb_le Ha2%N.leb_le].
    apply andb_true_iff in Hb as [Hb1%N.leb_le Hb2%N.leb_le].
    apply andb_true_iff in Hc as [Hc1%N.leb_le Hc2%N.leb_le].
    apply andb_true_iff in Hd as [Hd1%N.leb_le Hd2%N.leb_le].
    assert (Hcase : (a = 49 /\ b = 57)%N \/ (a = 50 /\ b = 48 /\ 48 <= c <= 50)%N)
      by lia.
    destruct Hcase as [[-> ->]|(-> & -> & Hc3 & Hc4)]; cbn.
    + done.
    + apply N.leb_le in Hc3, Hc4. by rewrite Hc3, Hc4.
Qed.

(** X4: containsYear answers true exactly when the password holds four
    consecutive decimal digits whose value is a year from 1900 to 2029. *)
Theorem containsYear_spec (s : jsstring) :
  containsYear s = true <->
  exists pre a b c d post,
    s = pre ++ [a; b; c; d] ++ post /\
    Forall (fun x => isDigit x = true) [a; b; c; d] /\
    (1900 <= decimalValue [a; b; c; d] <= 2029)%Z.
Proof.
  unfold containsYear. rewrite search_spec. split.
  - intros (pre & suf & -> & (a & b & c & d & post & -> & H)%yearHere_spec).
    by exists pre, a, b, c, d, post.
  - intros (pre & a & b & c & d & post & -> & H).
    exists pre, ([a; b; c; d] ++ post). split; [done|].
    apply yearHere_spec. by exists a, b, c, d, post.
Qed.

Lemma nameDigitsHere_window (suf : jsstring) :
  nameDigitsHere suf = true ->
  exists pre l d1 d2 post,
    suf = pre ++ [l; d1; d2] ++ post /\
    isLetter l = true /\ isDigit d1 = true /\ isDigit d2 = true.
Proof.
  induction suf as [|a rest IH]; [done|]. cbn [nameDigitsHere].
  intros [Ha [Hn|Ht]%orb_true_iff]%andb_true_iff.
  - destruct (IH Hn) as (pre & l & d1 & d2 & post & -> & H).
    by exists (a :: pre), l, d1, d2, post.
  - destruct rest as [|d1 [|d2 post]]; try done. cbn [twoDigitsHere] in Ht.
    apply andb_true_iff in Ht as [H1 H2].
    by exists [], a, d1, d2, post.
Qed.

(** X5: looksLikeEmailOrUsername answers true exactly when the password
    holds an at sign, or an ASCII letter directly followed by two decimal
    digits. *)
Theorem looksLikeEmailOrUsername_spec (s : jsstring) :
  looksLikeEmailOrUsername s = true <->
  (64%N ∈ s) \/
  exists pre l d1 d2 post,
    s = pre ++ [l; d1; d2] ++ post /\
    isLetter l = true /\ isDigit d1 = true /\ isDigit d2 = true.
Proof.
  unfold looksLikeEmailOrUsername.
  assert (Hat : includes s (str "@") = true <-> 64%N ∈ s).
  { rewrite includes_spec. change (str "@") with [64%N]. split.
    - intros (pre & post & ->). rewrite !elem_of_app, list_elem_of_singleton. tauto.
    - intros (pre & post & ->)%list_elem_of_split. by exists pre, post. }
  destruct (includes s (str "@")) eqn:Hi.
  - split; [intros _; left; by apply Hat|done].
  - assert (Hno : 64%N ∉ s) by (intros H%Hat; done).
    destruct (search nameDigitsHere s) eqn:Hs.
    + split; [intros _; right|done].
      apply search_spec in Hs as (pre & suf & -> & Hm).
      destruct (nameDigitsHere_window suf Hm) as (pre' & l & d1 & d2 & post & -> & H).
      exists (pre ++ pre'), l, d1, d2, post. by rewrite <- !app_assoc.
    + split; [done|].
      intros [H|(pre & l & d1 & d2 & post & -> & Hl & H1 & H2)]; [done|].
      assert (search nameDigitsHere (pre ++ [l; d1; d2] ++ post) = true);
        [|congruence].
      apply search_spec. exists pre, ([l; d1; d2] ++ post). split; [done|].
      cbn. by rewrite Hl, H1, H2, orb_true_r.
Qed.

Section Detectors.

Variable unicodeLower : CaseMap.

Local Abbreviation toLowerCase := (toLowerCase unicodeLower).
Local Abbreviation isSequential := (isSequential unicodeLower).
Local Abbreviation isKeyboardPattern := (isKeyboardPattern unicodeLower).

Lemma isSequential_run (s : jsstring) :
  isSequential s = true <->
  exists pre c post, toLowerCase s = pre ++ ascendingFrom c 4 ++ post.
Proof. apply sequential_run. Qed.

Lemma isKeyboardPattern_includes (s : jsstring) :
  isKeyboardPattern s = true <->
  exists p, p ∈ patterns /\ includes (toLowerCase s) p = true.
Proof.
  unfold App.isKeyboardPattern. rewrite existsb_exists.
  split; intros (p & Hp & H); exists p; split; try done; by apply list_elem_of_In.
Qed.

(** X6: isConsecutive accepts exactly the runs c, c+1, c+2, ... of code
    units, and isSequential answers true exactly when the lower-cased
    password holds such a run of four. *)
Theorem sequential_detection (s chunk : jsstring) :
  (isConsecutive chunk = true <->
   exists c, chunk = ascendingFrom c (length chunk)) /\
  (isSequential s = true <->
   exists pre c post, toLowerCase s = pre ++ ascendingFrom c 4 ++ post).
Proof. split; [apply isConsecutive_ascending|apply isSequential_run]. Qed.

(** X7: on an ASCII password, isKeyboardPattern answers true exactly when
    the password holds one of the eleven patterns up to the case of its
    letters. *)
Theorem keyboard_pattern_ascii (P : jsstring) :
  isAscii P ->
  (isKeyboardPattern P = true <->
   exists p, p ∈ patterns /\ containsIgnoringCase P p).
Proof.
  intros HP. rewrite isKeyboardPattern_includes. split.
  - intros (p & Hp & Hi). exists p. split; [done|].
    rewrite (toLowerCase_ascii unicodeLower P HP) in Hi.
    apply includes_spec in Hi as (pre & post & Hi).
    destruct (map_infix _ _ _ _ _ Hi) as (pre' & w & post' & -> & Hw).
    by exists pre', w, post'.
  - intros (p & Hp & Hc). exists p. split; [done|].
    apply toLowerCase_contains; [|done].
    clear Hc. revert p Hp. apply Forall_forall.
    apply (bool_decide_unpack _). by vm_compute.
Qed.

(** X8: the first pattern of the list never decides: whatever holds
    qwerty holds qwert, the seventh pattern, so isKeyboardPattern answers
    the same with the other ten patterns alone. *)
Theorem qwerty_pattern_redundant (s : jsstring) :
  isKeyboardPattern s
  = existsb (fun p => includes (toLowerCase s) p) (tail patterns).
Proof.
  unfold App.isKeyboardPattern. generalize (toLowerCase s). intros lower.
  change patterns with (str "qwerty" :: tail patterns). cbn [existsb tail].
  destruct (includes lower (str "qwerty")) eqn:Hq; [|done].
  symmetry. apply existsb_exists. exists (str "qwert"). split.
  - apply list_elem_of_In. apply (bool_decide_unpack _). by vm_compute.
  - apply includes_spec in Hq as (pre & post & ->). apply includes_spec.
    exists pre, (str "y" ++ post). reflexivity.
Qed.

(** X9: what a detector finds in a password it finds in every password
    that holds that one as a substring: always for isRepeatedChars,
    containsYear and looksLikeEmailOrUsername, and for isSequential and
    isKeyboardPattern when the inner password is ASCII. *)
Theorem detectors_survive_embedding (P pre post : jsstring) :
  (isRepeatedChars P = true -> isRepeatedChars (pre ++ P ++ post) = true) /\
  (containsYear P = true -> containsYear (pre ++ P ++ post) = true) /\
  (looksLikeEmailOrUsername P = true ->
   looksLikeEmailOrUsername (pre ++ P ++ post) = true) /\
  (isAscii P -> isSequential P = true ->
   isSequential (pre ++ P ++ post) = true) /\
  (isAscii P -> isKeyboardPattern P = true ->
   isKeyboardPattern (pre ++ P ++ post) = true).
Proof.
  split_and!.
  - intros (pre' & w & post' & Hw & ->)%repeated_doubled. apply repeated_doubled.
    exists (pre ++ pre'), w, (post' ++ post). split; [done|].
    by rewrite <- !app_assoc.
  - apply search_embedded, yearHere_extend.
  - unfold looksLikeEmailOrUsername, includes. intros H.
    destruct (search (fun suffix => startsWith suffix (str "@")) P) eqn:Hat.
    + rewrite (search_embedded _ pre P post); [done| |done].
      intros s t. apply startsWith_extend.
    + destruct (search nameDigitsHere P) eqn:Hn; [|done].
      rewrite (search_embedded nameDigitsHere pre P post nameDigitsHere_extend Hn).
      by destruct (search _ (pre ++ P ++ post)).
  - intros HP (pre' & c & post' & Hl)%isSequential_run. apply isSequential_run.
    rewrite (toLowerCase_ascii unicodeLower P HP) in Hl.
    destruct (convertFrom_ascii_infix asciiLower unicodeLower [] pre P post HP)
      as (X & Y & HXY).
    exists (X ++ pre'), c, (post' ++ Y). unfold JS.toLowerCase.
    rewrite HXY, Hl. by rewrite <- !app_assoc.
  - intros HP (p & Hp & (pre' & post' & Hl)%includes_spec)%isKeyboardPattern_includes.
    apply isKeyboardPattern_includes. exists p. split; [done|].
    rewrite (toLowerCase_ascii unicodeLower P HP) in Hl.
    destruct (convertFrom_ascii_infix asciiLower unicodeLower [] pre P post HP)
      as (X & Y & HXY).
    apply includes_spec. exists (X ++ pre'), (post' ++ Y). unfold JS.toLowerCase.
    rewrite HXY, Hl. by rewrite <- !app_assoc.
Qed.

End Detectors.

(** X7 at work on "MyQaZ!". *)
Lemma keyboard_pattern_ascii_witness :
  isAscii (str "MyQaZ!") /\
  (isKeyboardPattern asciiOnly (str "MyQaZ!") = true <->
   exists p, p ∈ patterns /\ containsIgnoringCase (str "MyQaZ!") p).
Proof.
  assert (H : isAscii (str "MyQaZ!")).
  { apply (bool_decide_unpack _). by vm_compute. }
  split; [exact H|exact (keyboard_pattern_ascii asciiOnly (str "MyQaZ!") H)].
Defined.

(** ** The common-password list *)

Lemma asciiLower_not_upper (c : N) : isUpper (asciiLower c) = false.
Proof.
  unfold asciiLower, isUpper.
  destruct (N.leb_spec 65 c), (N.leb_spec c 90); cbn [andb];
    apply andb_false_iff; rewrite !N.leb_gt; lia.
Qed.

Section Common.

Variable unicodeLower : CaseMap.

Local Abbreviation commonPasswordCheck := (commonPasswordCheck unicodeLower).

(** X10: two ASCII passwords that differ only in the case of their
    letters get the same answer from commonPasswordCheck. *)
Theorem common_password_ignores_case (P Q : jsstring) :
  isAscii P -> isAscii Q -> sameIgnoringCase P Q ->
  commonPasswordCheck P = commonPasswordCheck Q.
Proof.
  intros HP HQ Heq. unfold App.commonPasswordCheck.
  rewrite (toLowerCase_ascii unicodeLower P HP), (toLowerCase_ascii unicodeLower Q HQ).
  unfold sameIgnoringCase in Heq.
  set (a := map asciiLower P) in *. set (b := map asciiLower Q) in *.
  clearbody a b. subst b. reflexivity.
Qed.

(** X11: the password is lower-cased but the list is not, so an entry of
    the list that holds a capital letter is never what an ASCII password
    is looked up as; the list has two such entries, zaq1@WSX and zaq!@WSX,
    and a password equal to one of them up to letter case is not reported
    as common. *)
Theorem capitalised_entries_unreachable (P : jsstring) :
  isAscii P ->
  (forall entry, contains isUpper entry -> toLowerCase unicodeLower P <> entry) /\
  (str "zaq1@WSX" ∈ commonPasswords /\ str "zaq!@WSX" ∈ commonPasswords) /\
  (sameIgnoringCase P (str "zaq1@WSX") \/ sameIgnoringCase P (str "zaq!@WSX") ->
   commonPasswordCheck P = false).
Proof.
  intros HP. split_and!.
  - intros entry (c & Hc & Hu)%Exists_exists Heq.
    rewrite (toLowerCase_ascii unicodeLower P HP) in Heq. subst entry.
    apply list_elem_of_fmap in Hc as (c' & -> & _).
    by rewrite asciiLower_not_upper in Hu.
  - apply (bool_decide_unpack _). by vm_compute.
  - apply (bool_decide_unpack _). by vm_compute.
  - unfold App.commonPasswordCheck, sameIgnoringCase.
    rewrite (toLowerCase_ascii unicodeLower P HP).
    intros [-> | ->]; by vm_compute.
Qed.

End Common.

(** X10 at work on "PassWord" and "password". *)
Lemma common_password_ignores_case_witness :
  isAscii (str "PassWord") /\ isAscii (str "password") /\
  sameIgnoringCase (str "PassWord") (str "password") /\
  commonPasswordCheck asciiOnly (str "PassWord")
  = commonPasswordCheck asciiOnly (str "password").
Proof.
  assert (HP : isAscii (str "PassWord")).
  { apply (bool_decide_unpack _). by vm_compute. }
  assert (HQ : isAscii (str "password")).
  { apply (bool_decide_unpack _). by vm_compute. }
  assert (Heq : sameIgnoringCase (str "PassWord") (str "password")).
  { by vm_compute. }
  split_and!; [exact HP|exact HQ|exact Heq|].
  exact (common_password_ignores_case asciiOnly (str "PassWord") (str "password")
           HP HQ Heq).
Defined.

(** X11 at work: "zaq1@WSX", typed as the list has it, is not reported. *)
Lemma capitalised_entries_unreachable_witness :
  isAscii (str "zaq1@WSX") /\
  commonPasswordCheck asciiOnly (str "zaq1@WSX") = false.
Proof.
  assert (HP : isAscii (str "zaq1@WSX")).
  { apply (bool_decide_unpack _). by vm_compute. }
  split; [exact HP|].
  apply (proj2 (proj2 (capitalised_entries_unreachable asciiOnly (str "zaq1@WSX") HP))).
  left. reflexivity.
Defined.

(** ** Composition, entropy and what the page shows of them *)

Lemma test_extends (cls : N -> bool) (P Q : jsstring) :
  extends P Q -> test cls P = true -> test cls Q = true.
Proof.
  intros [Hsub _]. unfold test. rewrite !existsb_exists.
  intros (c & Hc%list_elem_of_In & H). exists c. split; [|done].
  by apply list_elem_of_In, Hsub.
Qed.

Lemma test_b2z_extends (cls : N -> bool) (P Q : jsstring) :
  extends P Q -> (Z.b2z (test cls P) <= Z.b2z (test cls Q))%Z.
Proof.
  intros H. pose proof (test_extends cls P Q H) as Ht.
  destruct (test cls P); [by rewrite Ht|]. by destruct (test cls Q).
Qed.

(** The sums that charsetSize, computeScore and the tips add up. *)
Lemma charsetSize_sum (P : jsstring) :
  (charsetSize P
   = 26 * Z.b2z (test isLower P) + 26 * Z.b2z (test isUpper P)
     + 10 * Z.b2z (test isDigit P) + 32 * Z.b2z (test isSymbol P))%Z.
Proof.
  unfold charsetSize. fold isSymbol.
  by destruct (test isLower P), (test isUpper P), (test isDigit P),
    (test isSymbol P).
Qed.

Lemma computeScore_sum (P : jsstring) :
  (computeScore P
   = Z.b2z (8 <=? length P)%nat + Z.b2z (test isLower P) + Z.b2z (test isUpper P)
     + Z.b2z (test isDigit P) + Z.b2z (test isSymbol P))%Z.
Proof.
  unfold computeScore. fold isSymbol.
  by destruct (8 <=? length P)%nat, (test isLower P), (test isUpper P),
    (test isDigit P), (test isSymbol P).
Qed.

Lemma tipsFor_length (P : jsstring) :
  (Z.of_nat (length (tipsFor P))
   = Z.b2z (length P <? 12)%nat + 4
     - (Z.b2z (test isLower P) + Z.b2z (test isUpper P)
        + Z.b2z (test isDigit P) + Z.b2z (test isSymbol P)))%Z.
Proof.
  unfold tipsFor. fold isSymbol.
  by destruct (length P <? 12)%nat, (test isLower P), (test isUpper P),
    (test isDigit P), (test isSymbol P).
Qed.

Lemma Math_log2_le (m n : Z) :
  (1 <= m <= n)%Z -> (Math_log2 (IZR m) <= Math_log2 (IZR n))%R.
Proof.
  intros Hmn. unfold Math_log2.
  assert (H2 : (0 < ln 2)%R).
  { rewrite <- ln_1. apply ln_increasing; lra. }
  apply Rmult_le_compat_r; [left; by apply Rinv_0_lt_compat|].
  destruct (Z.eq_dec m n) as [->|Hne]; [lra|].
  left. apply ln_increasing; [apply IZR_lt; lia|apply IZR_lt; lia].
Qed.

Lemma Math_log2_nonneg (n : Z) : (1 <= n)%Z -> (0 <= Math_log2 (IZR n))%R.
Proof.
  intros Hn. replace 0%R with (Math_log2 (IZR 1)).
  - apply Math_log2_le. lia.
  - unfold Math_log2. rewrite ln_1. lra.
Qed.

Lemma b2z_range (b : bool) : (0 <= Z.b2z b <= 1)%Z.
Proof. by destruct b. Qed.

Lemma test_b2z_contains (cls : N -> bool) (P : jsstring) :
  Z.b2z (test cls P) = 1%Z <-> contains cls P.
Proof.
  rewrite test_contains. case_bool_decide; cbn [Z.b2z]; split; (done || lia).
Qed.

(** X12: a password that has every character of another and is at least
    as long has at least its character-set size, base score and entropy
    estimate, and gets at most as many tips. *)
Theorem composition_monotone (P Q : jsstring) :
  extends P Q ->
  (charsetSize P <= charsetSize Q)%Z /\
  (computeScore P <= computeScore Q)%Z /\
  (estimateEntropy P <= estimateEntropy Q)%R /\
  length (tipsFor Q) <= length (tipsFor P).
Proof.
  intros H.
  pose proof (test_b2z_extends isLower P Q H) as Hl.
  pose proof (test_b2z_extends isUpper P Q H) as Hu.
  pose proof (test_b2z_extends isDigit P Q H) as Hd.
  pose proof (test_b2z_extends isSymbol P Q H) as Hs.
  pose proof (b2z_range (test isLower P)). pose proof (b2z_range (test isUpper P)).
  pose proof (b2z_range (test isDigit P)). pose proof (b2z_range (test isSymbol P)).
  destruct H as [Hsub Hlen].
  assert (Hcs : (0 <= charsetSize P <= charsetSize Q)%Z).
  { rewrite !charsetSize_sum. lia. }
  split_and!.
  - lia.
  - rewrite !computeScore_sum.
    destruct (Nat.leb_spec 8 (length P)), (Nat.leb_spec 8 (length Q));
      cbn [Z.b2z]; lia.
  - unfold estimateEntropy.
    destruct (Z.eqb_spec (charsetSize P) 0) as [HP0|HP0];
      destruct (Z.eqb_spec (charsetSize Q) 0) as [HQ0|HQ0]; try lia.
    + lra.
    + apply Rmult_le_pos; [apply Math_log2_nonneg; lia|apply pos_INR].
    + apply Rmult_le_compat.
      * apply Math_log2_nonneg; lia.
      * apply pos_INR.
      * apply Math_log2_le; lia.
      * by apply le_INR.
  - apply Nat2Z.inj_le. rewrite !tipsFor_length.
    destruct (Nat.ltb_spec (length P) 12), (Nat.ltb_spec (length Q) 12);
      cbn [Z.b2z]; lia.
Qed.

(** X12 at work on "abc1" and "1cabBA!". *)
Lemma composition_monotone_witness :
  extends (str "abc1") (str "1cabBA!") /\
  (charsetSize (str "abc1") <= charsetSize (str "1cabBA!"))%Z /\
  (computeScore (str "abc1") <= computeScore (str "1cabBA!"))%Z /\
  (estimateEntropy (str "abc1") <= estimateEntropy (str "1cabBA!"))%R /\
  length (tipsFor (str "1cabBA!")) <= length (tipsFor (str "abc1")).
Proof.
  assert (H : extends (str "abc1") (str "1cabBA!")).
  { split; [|vm_compute; lia].
    apply Forall_forall. apply (bool_decide_unpack _). by vm_compute. }
  split; [exact H|exact (composition_monotone (str "abc1") (str "1cabBA!") H)].
Defined.

(** X13: the entropy estimate lies between log2(10) and log2(94) bits per
    character: the character-set size of a non-empty password is at least
    10 and never more than 26 + 26 + 10 + 32. *)
Theorem entropy_bounds (P : jsstring) :
  (Math_log2 10 * INR (length P) <= estimateEntropy P
     <= Math_log2 94 * INR (length P))%R.
Proof.
  unfold estimateEntropy. rewrite charsetSize_alphabetSize.
  assert (Hup : (alphabetSize P <= 94)%Z).
  { unfold alphabetSize. repeat case_decide; lia. }
  destruct (alphabetSize_range P) as [[-> H0]|[Hne H10]].
  - rewrite H0. cbn [Z.eqb length INR]. lra.
  - destruct (Z.eqb_spec (alphabetSize P) 0) as [Hz|_]; [lia|].
    pose proof (pos_INR (length P)) as Hlen.
    split; (apply Rmult_le_compat_r; [done|]).
    + apply (Math_log2_le 10 (alphabetSize P)). lia.
    + apply (Math_log2_le (alphabetSize P) 94). lia.
Qed.

(** X14: each tip stands for a criterion the password misses; the tips and
    the base score add up to 5, or to 6 for a length from 8 to 11, which
    earns the length point and still gets the length tip; no tip is given
    exactly when the password has 12 characters or more and all four
    character classes. *)
Theorem tips_complement_score (P : jsstring) :
  (Z.of_nat (length (tipsFor P)) + computeScore P
   = if (8 <=? length P)%nat && (length P <? 12)%nat then 6 else 5)%Z /\
  (tipsFor P = [] <->
   12 <= length P /\ contains isLower P /\ contains isUpper P /\
   contains isDigit P /\ contains isSymbol P).
Proof.
  pose proof (tipsFor_length P) as Ht. pose proof (computeScore_sum P) as Hc.
  pose proof (b2z_range (test isLower P)). pose proof (b2z_range (test isUpper P)).
  pose proof (b2z_range (test isDigit P)). pose proof (b2z_range (test isSymbol P)).
  rewrite <- !test_b2z_contains, <- length_zero_iff_nil.
  destruct (Nat.leb_spec 8 (length P)), (Nat.ltb_spec (length P) 12);
    cbn [Z.b2z andb] in *; lia.
Qed.

Lemma strengthLabel_cases (score : Z) :
  (0 <= score <= 5)%Z ->
  (strengthLabel score = "Very Strong"%string <-> score = 5%Z) /\
  (strengthLabel score = "Very Weak"%string <-> (score <= 1)%Z).
Proof.
  intros Hs.
  assert (Hc : (score = 0 \/ score = 1 \/ score = 2 \/ score = 3 \/
                score = 4 \/ score = 5)%Z) by lia.
  destruct Hc as [->|[->|[->|[->|[->| ->]]]]]; vm_compute; split; split; intros;
    (done || lia || discriminate).
Qed.

Lemma adjustScore_cases (base : Z) (flags : list Flag) :
  (0 <= base)%Z ->
  (flags = [] /\ adjustScore base flags = base) \/
  (flags <> [] /\
   (Z.max 0 (base - 2) <= adjustScore base flags <= Z.max 0 (base - 1))%Z).
Proof.
  intros Hb. unfold adjustScore. destruct flags as [|f flags].
  - left. by cbn.
  - right. split; [done|].
    destruct (existsb _ (f :: flags)); cbn [length Nat.ltb Nat.leb]; lia.
Qed.

(** The locals of onInput after its breach check, over any flag list with
    at most the common-password flag of severity danger. *)
Lemma settled_bounds (base : Z) (flags : list Flag) (cp : bool) (c : Completion Z)
    (value sha1 : jsstring) :
  (0 <= base <= 5)%Z ->
  filter (fun f => Flag.s f = Flag.danger) flags
    = (if cp then [commonFlag] else []) ->
  (hasCommonFlag flags <-> cp = true) ->
  let l := {| Frame.value := value; Frame.sha1 := sha1; Frame.flags := flags;
              Frame.adjustedScore := adjustScore base flags |} in
  let l' := match c with
            | Returned pwnCount =>
                if decide ((0 < pwnCount)%Z /\ ~ hasCommonFlag (Frame.flags l))
                then {| Frame.value := Frame.value l; Frame.sha1 := Frame.sha1 l;
                        Frame.flags := breachFlag pwnCount :: Frame.flags l;
                        Frame.adjustedScore := Z.max 0 (Frame.adjustedScore l - 2) |}
                else l
            | Thrown => l
            end in
  (Z.max 0 (base - 3) <= Frame.adjustedScore l' <= adjustScore base flags)%Z /\
  (adjustScore base flags <= base)%Z /\
  length (filter (fun f => Flag.s f = Flag.danger) (Frame.flags l')) <= 1 /\
  (Frame.adjustedScore l' = base -> base = 0%Z \/ Frame.flags l' = []).
Proof.
  intros Hr Hd Hcf l l'. subst l' l. cbn [Frame.flags Frame.adjustedScore].
  assert (Hb : (0 <= base)%Z) by lia.
  rewrite (adjustScore_penalty base flags Hb).
  pose proof (penalty_range flags) as Hp.
  assert (Hlen : length (filter (fun f => Flag.s f = Flag.danger) flags) <= 1).
  { rewrite Hd. destruct cp; cbn [length]; lia. }
  assert (Hpen : hasCommonFlag flags \/ (penalty flags <= 1)%Z).
  { unfold penalty. case_decide as Hex; [left|right; case_decide; lia].
    apply Hcf. apply Exists_exists in Hex as (f & Hf & Hs).
    assert (Hin : f ∈ filter (fun f => Flag.s f = Flag.danger) flags).
    { by apply list_elem_of_filter. }
    rewrite Hd in Hin. destruct cp; [done|]. by apply elem_of_nil in Hin. }
  assert (Hzero : penalty flags = 0%Z -> flags = []).
  { unfold penalty. repeat case_decide; try lia. intros _.
    destruct (decide (flags = [])); tauto. }
  destruct c as [pwnCount|].
  - case_decide as Hfound; cbn [Frame.flags Frame.adjustedScore].
    + destruct Hfound as [_ Hnc]. destruct Hpen as [?|Hpen]; [done|].
      assert (Hnil : filter (fun f => Flag.s f = Flag.danger) flags = []).
      { rewrite Hd. destruct cp; [|done]. exfalso. by apply Hnc, Hcf. }
      split_and!; try lia.
      rewrite filter_cons, decide_True by done. rewrite Hnil. cbn [length]. lia.
    + split_and!; try lia.
      intros Heq. destruct (decide (base = 0%Z)); [by left|right]. apply Hzero. lia.
  - cbn [Frame.flags Frame.adjustedScore]. split_and!; try lia.
    intros Heq. destruct (decide (base = 0%Z)); [by left|right]. apply Hzero. lia.
Qed.

Section Strength.

Variable unicodeLower unicodeUpper : CaseMap.

Local Abbreviation commonPasswordCheck := (commonPasswordCheck unicodeLower).
Local Abbreviation patternFlags := (patternFlags unicodeLower).
Local Abbreviation onInput_hashed := (onInput_hashed unicodeLower unicodeUpper).
Local Abbreviation step := (step unicodeLower unicodeUpper).
Local Abbreviation checkPwned := (checkPwned unicodeUpper).

(** X15: what onInput shows while the breach check is pending: the label
    is Very Strong exactly when all five criteria are met and no flag is
    raised, the bar has the colour of a bad score exactly when the label
    is Very Weak, its width is never more than the base score earns, and
    the breach status reads as checking. *)
Theorem shown_strength (P : jsstring) (h : list Byte.byte) (u : UI.ui) :
  let shown := fst (onInput_hashed P h u) in
  (UI.strengthText shown = "Strength: Very Strong"%string <->
   computeScore P = 5%Z /\ patternFlags P = []) /\
  (UI.fillBackground shown = UI.bad <->
   UI.strengthText shown = "Strength: Very Weak"%string) /\
  (0 <= UI.fillWidth shown <= 20 * computeScore P)%Z /\
  UI.pwnedEl shown = UI.Checking.
Proof.
  cbn [App.onInput_hashed fst updateStrengthUI renderFlags setPwned setSha1Entropy
       UI.strengthText UI.fillBackground UI.fillWidth UI.pwnedEl].
  pose proof (computeScore_range P) as Hr.
  generalize dependent (computeScore P). intros base Hr.
  generalize (patternFlags P). intros flags.
  assert (Hb : (0 <= base)%Z) by lia.
  destruct (adjustScore_cases base flags Hb) as [[-> Ha]|[Hne Ha]].
  - rewrite Ha. destruct (strengthLabel_cases base Hr) as [Hvs Hvw].
    split_and!.
    + split.
      * intros [= Hl]. split; [by apply Hvs|done].
      * intros [Hl _]. by rewrite (proj2 Hvs Hl).
    + split.
      * destruct (Z.leb_spec base 1) as [H1|H1];
          [intros _; by rewrite (proj2 Hvw H1)|].
        by destruct (base =? 2)%Z.
      * intros [= Hl]. apply Hvw in Hl. by destruct (Z.leb_spec base 1); [|lia].
    + lia.
    + lia.
    + done.
  - set (a := adjustScore base flags) in *.
    assert (Har : (0 <= a <= 5)%Z) by lia.
    destruct (strengthLabel_cases a Har) as [Hvs Hvw].
    split_and!.
    + split.
      * intros [= Hl]. apply Hvs in Hl. lia.
      * by intros [_ ?].
    + split.
      * destruct (Z.leb_spec a 1) as [H1|H1];
          [intros _; by rewrite (proj2 Hvw H1)|].
        by destruct (a =? 2)%Z.
      * intros [= Hl]. apply Hvw in Hl. by destruct (Z.leb_spec a 1); [|lia].
    + lia.
    + lia.
    + done.
Qed.

Lemma danger_flags_of_patternFlags (P : jsstring) :
  filter (fun f => Flag.s f = Flag.danger) (patternFlags P)
  = if commonPasswordCheck P then [commonFlag] else [].
Proof.
  rewrite (patternFlags_explicit unicodeLower P).
  destruct (App.commonPasswordCheck unicodeLower P), (isSequential unicodeLower P),
    (isRepeatedChars P), (isKeyboardPattern unicodeLower P), (containsYear P),
    (looksLikeEmailOrUsername P); exact eq_refl.
Qed.

Lemma common_flag_of_patternFlags (P : jsstring) :
  hasCommonFlag (patternFlags P) <-> commonPasswordCheck P = true.
Proof.
  unfold hasCommonFlag. rewrite (patternFlags_explicit unicodeLower P).
  destruct (App.commonPasswordCheck unicodeLower P), (isSequential unicodeLower P),
    (isRepeatedChars P), (isKeyboardPattern unicodeLower P), (containsYear P),
    (looksLikeEmailOrUsername P); cbn [app];
    rewrite ?Exists_cons, ?Exists_nil; cbn; split; intros; try done;
    repeat match goal with H : _ \/ _ |- _ => destruct H end; try done; by left.
Qed.

(** X16: once the breach check has completed, whatever it completed with:
    the adjusted score has lost at most 3 against the base score (and is
    not below 0), it is not above what it was before the check, at most
    one flag has severity danger, and the adjusted score equals the base
    score only when no flag is left or the base score is 0. *)
Theorem settled_score_bounds
    (P : jsstring) (h : list Byte.byte) (c : Completion Z) (u u' : UI.ui) :
  let l := snd (onInput_hashed P h u) in
  let l' := snd (onInput_settled l c u') in
  (Z.max 0 (computeScore P - 3) <= Frame.adjustedScore l'
     <= Frame.adjustedScore l)%Z /\
  (Frame.adjustedScore l <= computeScore P)%Z /\
  length (filter (fun f => Flag.s f = Flag.danger) (Frame.flags l')) <= 1 /\
  (Frame.adjustedScore l' = computeScore P ->
   computeScore P = 0%Z \/ Frame.flags l' = []).
Proof.
  intros l l'. subst l'. rewrite onInput_settled_locals. subst l.
  cbn [App.onInput_hashed snd Frame.flags Frame.adjustedScore Frame.value Frame.sha1].
  pose proof (computeScore_range P) as Hr.
  pose proof (danger_flags_of_patternFlags P) as Hd.
  pose proof (common_flag_of_patternFlags P) as Hcf.
  generalize dependent (commonPasswordCheck P). intros cp.
  generalize (patternFlags P). intros flags Hd Hcf.
  generalize dependent (computeScore P). intros base Hr.
  exact (settled_bounds base flags cp c P (sha1hex unicodeUpper h) Hr Hd Hcf).
Qed.

(** X17: emptying the field clears the page and returns at once, but an
    onInput call that is waiting for its breach check stays suspended; when
    that check settles, its outcome is written over the cleared breach
    status, while the digest shown stays the dash. *)
Theorem cleared_field_keeps_checks
    (pg : Page) (call : nat) (l : Frame.locals) (res : FetchResult) :
  suspended pg !! call = Some (Frame.AwaitPwned l) ->
  exists cleared settled,
    step pg (Input []) = Some cleared /\
    suspended cleared = suspended pg /\
    UI.sha1El (ui cleared) = None /\
    UI.pwnedEl (ui cleared) = UI.Dash /\
    UI.flagsEl (ui cleared) = [] /\
    UI.fillWidth (ui cleared) = 0%Z /\
    step cleared (FetchSettled call res) = Some settled /\
    UI.sha1El (ui settled) = None /\
    UI.pwnedEl (ui settled) <> UI.Dash /\
    suspended settled = delete call (suspended pg).
Proof.
  intros Hcall.
  set (cleared := {| ui := clearUIIfEmpty [] (ui pg);
                     suspended := suspended pg;
                     calls := S (calls pg) |}).
  exists cleared,
    {| ui := fst (onInput_settled l (checkPwned (Frame.sha1 l) res) (ui cleared));
       suspended := delete call (suspended pg);
       calls := S (calls pg) |}.
  split_and!; try reflexivity.
  - unfold App.step, cleared. cbn [suspended ui calls]. rewrite Hcall.
    by destruct (onInput_settled l _ _).
  - cbn [ui]. unfold onInput_settled.
    destruct (checkPwned (Frame.sha1 l) res) as [pwnCount|]; [|done].
    destruct (0 <? pwnCount)%Z; [|done]. by destruct (negb _).
  - cbn [ui]. unfold onInput_settled.
    destruct (checkPwned (Frame.sha1 l) res) as [pwnCount|]; [|done].
    destruct (0 <? pwnCount)%Z; [|done]. by destruct (negb _).
Qed.

End Strength.

(** X17 at work: the field is emptied while the check of "abcabc" is in
    flight. *)
Lemma cleared_field_keeps_checks_witness :
  exists cleared settled,
    step asciiOnly asciiOnly pageBeforeStale (Input []) = Some cleared /\
    UI.pwnedEl (ui cleared) = UI.Dash /\
    step asciiOnly asciiOnly cleared (FetchSettled 0 (Response 200 sampleRange))
      = Some settled /\
    UI.sha1El (ui settled) = None /\
    UI.pwnedEl (ui settled) <> UI.Dash.
Proof.
  destruct (cleared_field_keeps_checks asciiOnly asciiOnly pageBeforeStale 0
              staleLocals (Response 200 sampleRange))
    as (cleared & settled & H1 & _ & _ & H2 & _ & _ & H3 & H4 & H5 & _).
  - by vm_compute.
  - exists cleared, settled. split_and!; [exact H1|exact H2|exact H3|exact H4|exact H5].
Defined.

(** ** Padding in the range response *)

Lemma dropWhile_app_all (f : N -> bool) (s ws : jsstring) :
  Forall (fun c => f c = true) ws ->
  dropWhile f (s ++ ws)
  = match dropWhile f s with [] => [] | _ :: _ => dropWhile f s ++ ws end.
Proof.
  intros Hws. induction s as [|c s IH]; cbn [app dropWhile].
  - rewrite <- (app_nil_r ws) at 1. by rewrite dropWhile_all.
  - by destruct (f c).
Qed.

Lemma trim_padded (line line' : jsstring) :
  padded line line' -> trim line' = trim line.
Proof.
  intros (ws & ws' & Hws & Hws' & ->). unfold trim.
  rewrite (dropWhile_all _ ws) by done.
  rewrite (dropWhile_app_all _ line ws') by done.
  destruct (dropWhile isWhiteSpace line) as [|c rest] eqn:Hd; [done|].
  rewrite rev_app_distr. rewrite dropWhile_all; [done|].
  by apply Forall_rev.
Qed.

(** X18: white space around the lines of the range response (the carriage
    return that ends each line of the service's answer, indentation)
    does not change what the lookup returns. *)
Theorem lookup_ignores_padding
    (unicodeUpper : CaseMap) (suffix : jsstring) (lines lines' : list jsstring) :
  Forall2 padded lines lines' ->
  scanLines unicodeUpper suffix lines' = scanLines unicodeUpper suffix lines.
Proof.
  induction 1 as [|line line' lines lines' Hp _ IH]; [done|].
  cbn [scanLines]. by rewrite (trim_padded line line' Hp), IH.
Qed.

(** X18 at work on two records, indented and ended by a carriage return. *)
Lemma lookup_ignores_padding_witness :
  Forall2 padded [str "0018A45C:3"; str "87006FBF:37"]
    [str " 0018A45C:3" ++ [13%N]; [9%N] ++ str "87006FBF:37" ++ [13%N]] /\
  scanLines asciiOnly (str "87006FBF")
    [str " 0018A45C:3" ++ [13%N]; [9%N] ++ str "87006FBF:37" ++ [13%N]]
  = scanLines asciiOnly (str "87006FBF") [str "0018A45C:3"; str "87006FBF:37"].
Proof.
  assert (H : Forall2 padded [str "0018A45C:3"; str "87006FBF:37"]
                [str " 0018A45C:3" ++ [13%N]; [9%N] ++ str "87006FBF:37" ++ [13%N]]).
  { constructor; [|constructor; [|constructor]].
    - exists [32%N], [13%N]. split_and!; [by repeat constructor..|reflexivity].
    - exists [9%N], [13%N]. split_and!; [by repeat constructor..|reflexivity]. }
  split; [exact H|exact (lookup_ignores_padding asciiOnly _ _ _ H)].
Defined.

(** ** The markup of the flags *)

Lemma escapeChar_cases (c : N) :
  (c = 38%N /\ escapeChar c = str "&amp;") \/
  (c = 60%N /\ escapeChar c = str "&lt;") \/
  (c = 62%N /\ escapeChar c = str "&gt;") \/
  (c = 34%N /\ escapeChar c = str "&quot;") \/
  ((c ∉ escaped) /\ escapeChar c = [c]).
Proof.
  unfold escapeChar, escaped.
  destruct (N.eqb_spec c 38); [tauto|].
  destruct (N.eqb_spec c 60); [tauto|].
  destruct (N.eqb_spec c 62); [tauto|].
  destruct (N.eqb_spec c 34); [tauto|].
  do 4 right. split; [|done]. rewrite !not_elem_of_cons. split_and!; try done.
  apply not_elem_of_nil.
Qed.

Lemma escapeHTML_cons (c : N) (s : jsstring) :
  escapeHTML (c :: s) = escapeChar c ++ escapeHTML s.
Proof. reflexivity. Qed.

Lemma escapeHTML_app (a b : jsstring) :
  escapeHTML (a ++ b) = escapeHTML a ++ escapeHTML b.
Proof. unfold escapeHTML. by rewrite map_app, concat_app. Qed.

Lemma countOf_app (c : N) (a b : jsstring) :
  countOf c (a ++ b) = countOf c a + countOf c b.
Proof. unfold countOf. by rewrite filter_app, length_app. Qed.

Lemma countOf_zero (c : N) (s : jsstring) : countOf c s = 0 <-> c ∉ s.
Proof.
  unfold countOf. induction s as [|x s IH].
  - split; [intros _; apply not_elem_of_nil|done].
  - rewrite filter_cons, not_elem_of_cons. case_decide; cbn [length].
    + split; [done|]. by intros [? _].
    + rewrite IH. split; [by intros ?|by intros [_ ?]].
Qed.

Lemma escapeChar_no_markup (c x : N) :
  c = 60%N \/ c = 62%N \/ c = 34%N -> countOf c (escapeChar x) = 0.
Proof.
  intros Hc.
  destruct (escapeChar_cases x) as [[_ ->]|[[_ ->]|[[_ ->]|[[_ ->]|(Hx & ->)]]]];
    [destruct Hc as [->|[->| ->]]; by vm_compute..|].
  apply countOf_zero. rewrite list_elem_of_singleton. intros <-. apply Hx.
  destruct Hc as [->|[->| ->]]; by apply (bool_decide_unpack _).
Qed.

Lemma escapeHTML_no_markup (c : N) (s : jsstring) :
  c = 60%N \/ c = 62%N \/ c = 34%N -> countOf c (escapeHTML s) = 0.
Proof.
  intros Hc. induction s as [|x s IH]; [done|].
  by rewrite escapeHTML_cons, countOf_app, IH, Nat.add_0_r, escapeChar_no_markup.
Qed.

Lemma escapeChar_length (c : N) :
  ((c ∉ escaped) /\ escapeChar c = [c]) \/
  ((c ∈ escaped) /\ (38%N ∈ escapeChar c) /\ 2 <= length (escapeChar c)).
Proof.
  destruct (escapeChar_cases c) as [[-> ->]|[[-> ->]|[[-> ->]|[[-> ->]|H]]]];
    [right; split_and!;
       [by apply (bool_decide_unpack _)|by left|vm_compute; lia]..|by left].
Qed.

Lemma escapeHTML_length (s : jsstring) : length s <= length (escapeHTML s).
Proof.
  induction s as [|x s IH]; [done|]. rewrite escapeHTML_cons, length_app. cbn [length].
  destruct (escapeChar_length x) as [[_ ->]|(_ & _ & H)]; cbn [length]; lia.
Qed.

Lemma escapeHTML_fixed (s : jsstring) :
  escapeHTML s = s <-> Forall (fun c => c ∉ escaped) s.
Proof.
  split.
  - intros Heq. apply Forall_forall. intros c Hc Hin.
    apply list_elem_of_split in Hc as (a & b & ->).
    rewrite escapeHTML_app, escapeHTML_cons in Heq.
    apply (f_equal length) in Heq. rewrite !length_app in Heq. cbn [length] in Heq.
    pose proof (escapeHTML_length a). pose proof (escapeHTML_length b).
    destruct (escapeChar_length c) as [[Hn _]|(_ & _ & H2)]; [done|lia].
  - induction 1 as [|c s Hc Hs IH]; [done|].
    rewrite escapeHTML_cons, IH.
    by destruct (escapeChar_length c) as [[_ ->]|[? _]].
Qed.

Lemma escapeHTML_keeps_ampersand (s : jsstring) :
  Exists (fun c => c ∈ escaped) s -> 38%N ∈ escapeHTML s.
Proof.
  induction 1 as [c s Hc|c s _ IH]; rewrite escapeHTML_cons, elem_of_app.
  - left. by destruct (escapeChar_length c) as [[? _]|(_ & ? & _)].
  - by right.
Qed.

(** X19: the text escapeHTML returns holds no angle bracket and no double
    quote; escaping goes character by character, never shortens, and
    leaves a text as it is exactly when the text holds none of the four
    escaped characters; escaping twice is escaping once only for such a
    text. *)
Theorem escapeHTML_neutralises (s t : jsstring) :
  ((60%N ∉ escapeHTML s) /\ (62%N ∉ escapeHTML s) /\ (34%N ∉ escapeHTML s)) /\
  escapeHTML (s ++ t) = escapeHTML s ++ escapeHTML t /\
  length s <= length (escapeHTML s) /\
  (escapeHTML s = s <-> Forall (fun c => c ∉ escaped) s) /\
  (escapeHTML (escapeHTML s) = escapeHTML s <-> escapeHTML s = s).
Proof.
  split_and!.
  - apply countOf_zero, escapeHTML_no_markup. tauto.
  - apply countOf_zero, escapeHTML_no_markup. tauto.
  - apply countOf_zero, escapeHTML_no_markup. tauto.
  - apply escapeHTML_app.
  - apply escapeHTML_length.
  - apply escapeHTML_fixed.
  - split; [|intros H; by rewrite !H].
    intros Hfix%escapeHTML_fixed. apply escapeHTML_fixed.
    apply Forall_forall. intros c Hc Hin.
    assert (H38 : 38%N ∈ escapeHTML s).
    { apply escapeHTML_keeps_ampersand, Exists_exists. by exists c. }
    rewrite Forall_forall in Hfix. apply (Hfix _ H38).
    by apply (bool_decide_unpack _).
Qed.

Lemma escapeChar_head (c : N) :
  exists x rest, escapeChar c = x :: rest /\ (x = 38%N <-> c ∈ escaped).
Proof.
  destruct (escapeChar_cases c) as [[-> ->]|[[-> ->]|[[-> ->]|[[-> ->]|[Hc ->]]]]].
  1-4: eexists _, _; split; [reflexivity|];
         split; [intros _; by apply (bool_decide_unpack _)|done].
  exists c, []. split; [done|]. split; [|done]. intros ->. exfalso. apply Hc.
  by apply (bool_decide_unpack _).
Qed.

(** X20: escapeHTML is injective: two texts with the same escaped form are
    the same text. *)
Theorem escapeHTML_injective (s t : jsstring) :
  escapeHTML s = escapeHTML t <-> s = t.
Proof.
  split; [|by intros ->].
  revert t. induction s as [|c s IH]; intros [|d t] Heq; try done.
  - rewrite escapeHTML_cons in Heq.
    destruct (escapeChar_head d) as (x & rest & Hd & _). by rewrite Hd in Heq.
  - rewrite escapeHTML_cons in Heq.
    destruct (escapeChar_head c) as (x & rest & Hd & _). by rewrite Hd in Heq.
  - rewrite !escapeHTML_cons in Heq.
    destruct (escapeChar_cases c) as [[-> Hc]|[[-> Hc]|[[-> Hc]|[[-> Hc]|[Hc1 Hc]]]]];
    destruct (escapeChar_cases d) as [[-> Hd]|[[-> Hd]|[[-> Hd]|[[-> Hd]|[Hd1 Hd]]]]];
    rewrite ?Hc, ?Hd in Heq; try discriminate Heq;
    try (f_equal; apply IH; by simplify_list_eq).
    + exfalso. apply Hd1. injection Heq as <-. by apply (bool_decide_unpack _).
    + exfalso. apply Hd1. injection Heq as <-. by apply (bool_decide_unpack _).
    + exfalso. apply Hd1. injection Heq as <-. by apply (bool_decide_unpack _).
    + exfalso. apply Hd1. injection Heq as <-. by apply (bool_decide_unpack _).
    + exfalso. apply Hc1. injection Heq as ->. by apply (bool_decide_unpack _).
    + exfalso. apply Hc1. injection Heq as ->. by apply (bool_decide_unpack _).
    + exfalso. apply Hc1. injection Heq as ->. by apply (bool_decide_unpack _).
    + exfalso. apply Hc1. injection Heq as ->. by apply (bool_decide_unpack _).
    + injection Heq as -> Heq. f_equal. by apply IH.
Qed.

Lemma flagHTML_counts (f : Flag) :
  countOf 60 (flagHTML f) = 6 /\ countOf 62 (flagHTML f) = 6 /\
  countOf 34 (flagHTML f) = 2.
Proof.
  unfold flagHTML. rewrite !countOf_app.
  rewrite !(escapeHTML_no_markup 60), !(escapeHTML_no_markup 62),
    !(escapeHTML_no_markup 34) by tauto.
  destruct (Flag.s f); by vm_compute.
Qed.

(** X21: the markup renderFlags builds has six opening and six closing
    angle brackets and two double quotes per flag, whatever the title and
    the detail of the flags say: their text adds no tag and no attribute;
    the markup is empty only for no flag. *)
Theorem flagsHTML_tags (flags : list Flag) :
  countOf 60 (flagsHTML flags) = 6 * length flags /\
  countOf 62 (flagsHTML flags) = 6 * length flags /\
  countOf 34 (flagsHTML flags) = 2 * length flags /\
  (flagsHTML flags = [] <-> flags = []).
Proof.
  assert (Hc : flagsHTML flags = concat (map flagHTML flags)) by by destruct flags.
  rewrite Hc. clear Hc.
  induction flags as [|f flags (IH1 & IH2 & IH3 & IH4)]; [done|].
  cbn [map concat length]. rewrite !countOf_app, IH1, IH2, IH3.
  destruct (flagHTML_counts f) as (-> & -> & ->).
  split_and!; [lia..|]. split; [|done].
  intros [H _]%app_eq_nil. by destruct (Flag.s f).
Qed.
